(** * slack-cc-proxy: a shallow embedding of the session/stream multiplexer

    The development follows [askSDK], [askClaude], [trim], [liveUpdate] and
    [handleMessage] of the proxy, in the script that has both modes (the
    [quick:] prefix for the SDK, Claude Code otherwise). [index.js], the
    script without the prefix, has the same [askSDK], [trim], [liveUpdate]
    and history bookkeeping and the same [askClaude] but for its ['error']
    handler, which does not clear the timer; it keys its state by thread
    instead of by channel.

    JavaScript strings are sequences of UTF-16 code units ([list N]);
    [Date.now()] values are integers ([Z]); a chunk of the worker's output
    is a list of bytes; the [histories] map and the [ccSessions] set are a
    [gmap] and a [gset], the arrays stored in [histories] being held by
    reference; the promise returned by [askClaude] is modelled by the
    sequence of [resolve]/[reject] calls the handlers make, of which the
    first one settles it. [JSON.parse], [toLowerCase], the conversions
    between values, strings and numbers, the formatting of numbers and the
    messages of type errors are parameters. An [async] function is a
    sequence of phases, one per stretch between two [await]s; a handler
    and its invocation together are a state machine on what the event loop
    delivers to them: the events of the worker or of the stream, and the
    ends of the calls of the chat client that the handler awaits. *)

From Stdlib Require Import ZArith NArith Ascii String Floats.
From stdpp Require Import base option list gmap sets strings pretty.

Local Open Scope Z_scope.

(** ** JavaScript strings *)

(** A JavaScript string: its UTF-16 code units, in order. *)
Abbreviation jsstring := (list N).

(** A string literal of the source, one code unit per character
    (the literals of the program are ASCII, except for U+00B7 in [meta]). *)
Fixpoint str (s : string) : jsstring :=
  match s with
  | EmptyString => []
  | String c r => N_of_ascii c :: str r
  end.

(** [s.length] as a JavaScript number. *)
Definition js_length (s : jsstring) : Z := Z.of_nat (length s).

(** [s.slice(start)] with one argument: a negative [start] counts from the
    end, and the index is clamped to [0 .. s.length]. *)
Definition js_slice_from (s : jsstring) (start : Z) : jsstring :=
  let len := js_length s in
  let from := if start <? 0 then Z.max (len + start) 0 else Z.min start len in
  drop (Z.to_nat from) s.

(** ** [trim]: the display budget

    [function trim(t, max) { max=max||3800;
       return t.length<=max ? t : '...'+t.slice(-(max-3)); }]
    [max] is [None] when the argument is omitted ([undefined]); [0] is falsy
    and is replaced by the default as well. *)
Definition trim (t : jsstring) (max : option Z) : jsstring :=
  let max := match max with
             | Some m => if m =? 0 then 3800 else m
             | None => 3800
             end in
  if js_length t <=? max then t
  else str "..." ++ js_slice_from t (- (max - 3)).

(** ** [liveUpdate]: the update throttler

    [let lastText = '', lastAt = 0;
     function liveUpdate(t) {
       t = trim(t); if (t === lastText) return; lastText = t;
       const now = Date.now(); if (now - lastAt < 600) return; lastAt = now;
       client.chat.update({ channel: chan, ts: posted.ts, text: t }) ... }] *)
Record throttle := Throttle { lastText : jsstring; lastAt : Z }.

Definition throttle_init : throttle := Throttle [] 0.

(** One call of [liveUpdate] at time [now]: the new closure state and the
    text passed to [client.chat.update], if the call reaches it. *)
Definition liveUpdate (now : Z) (t : jsstring) (st : throttle)
  : throttle * option jsstring :=
  let t := trim t None in
  if decide (t = lastText st) then (st, None)
  else if now - lastAt st <? 600 then (Throttle t (lastAt st), None)
  else (Throttle t now, Some t).

(** A sequence of [liveUpdate] calls, each with the clock value it reads.
    The second component is the log of [client.chat.update] calls made, in
    order: the clock value at the call and the text sent. *)
Fixpoint liveUpdates (calls : list (Z * jsstring)) (st : throttle)
  : throttle * list (Z * jsstring) :=
  match calls with
  | [] => (st, [])
  | (now, t) :: rest =>
      let '(st1, o) := liveUpdate now t st in
      let '(st2, out) := liveUpdates rest st1 in
      (st2, from_option (λ x, [(now, x)]) [] o ++ out)
  end.

(** ** The line framer and the text it works on *)

(** [d.toString()] on a [Buffer]: UTF-8 decoding of the bytes of ONE chunk.
    Every maximal ill-formed or truncated subsequence becomes U+FFFD, and a
    code point above U+FFFF becomes a surrogate pair. *)
Definition is_cont (b : N) : bool := ((128 <=? b) && (b <=? 191))%N.

Definition in_range (lo hi b : N) : bool := ((lo <=? b) && (b <=? hi))%N.

(** The range allowed for the second byte after the lead byte [b0] of a
    three- or four-byte sequence (no overlong forms, no surrogates, nothing
    above U+10FFFF). *)
Definition second_lo (b0 : N) : N :=
  (if b0 =? 224 then 160 else if b0 =? 240 then 144 else 128)%N.
Definition second_hi (b0 : N) : N :=
  (if b0 =? 237 then 159 else if b0 =? 244 then 143 else 191)%N.

Definition surrogates (cp : N) : jsstring :=
  (let c := cp - 65536 in [55296 + c / 1024; 56320 + c mod 1024])%N.

Fixpoint utf8_decode (bs : list N) : jsstring :=
  match bs with
  | [] => []
  | b0 :: r0 =>
    if (b0 <? 128)%N then b0 :: utf8_decode r0
    else if in_range 194 223 b0 then
      match r0 with
      | [] => [65533%N]
      | b1 :: r1 =>
        if is_cont b1
        then ((b0 - 192) * 64 + (b1 - 128))%N :: utf8_decode r1
        else 65533%N :: utf8_decode r0
      end
    else if in_range 224 239 b0 then
      match r0 with
      | [] => [65533%N]
      | b1 :: r1 =>
        if in_range (second_lo b0) (second_hi b0) b1 then
          match r1 with
          | [] => [65533%N]
          | b2 :: r2 =>
            if is_cont b2
            then ((b0 - 224) * 4096 + (b1 - 128) * 64 + (b2 - 128))%N
                   :: utf8_decode r2
            else 65533%N :: utf8_decode r1
          end
        else 65533%N :: utf8_decode r0
      end
    else if in_range 240 244 b0 then
      match r0 with
      | [] => [65533%N]
      | b1 :: r1 =>
        if in_range (second_lo b0) (second_hi b0) b1 then
          match r1 with
          | [] => [65533%N]
          | b2 :: r2 =>
            if is_cont b2 then
              match r2 with
              | [] => [65533%N]
              | b3 :: r3 =>
                if is_cont b3
                then surrogates ((b0 - 240) * 262144 + (b1 - 128) * 4096
                                 + (b2 - 128) * 64 + (b3 - 128))%N
                       ++ utf8_decode r3
                else 65533%N :: utf8_decode r2
              end
            else 65533%N :: utf8_decode r1
          end
        else 65533%N :: utf8_decode r0
      end
    else 65533%N :: utf8_decode r0
  end.

(** A chunk delivered to a ['data'] handler is a [Buffer]. *)
Definition Buffer_toString (d : list Byte.byte) : jsstring :=
  utf8_decode (Byte.to_N <$> d).

(** [s.split('\n')]: the pieces between line feeds; never the empty array. *)
Fixpoint split_nl (s : jsstring) : list jsstring :=
  match s with
  | [] => [[]]
  | c :: r =>
    if (c =? 10)%N then [] :: split_nl r
    else match split_nl r with
         | l :: ls => (c :: l) :: ls
         | [] => [[c]]
         end
  end.

(** [lines.pop()]: the array without its last element, and that element
    ([None] stands for [undefined], when the array is empty). *)
Definition pop {A} (l : list A) : list A * option A := (removelast l, last l).

(** The line framer inside the ['data'] handler, on the decoded text [d]:
    [buf += d; const lines = buf.split('\n'); buf = lines.pop();]
    gives the complete lines and the new carry-over [buf]. *)
Definition feed_text (d : jsstring) (buf : jsstring)
  : list jsstring * jsstring :=
  let '(lines, carry) := pop (split_nl (buf ++ d)) in
  (lines, default [] carry).

(** The same on the chunk as delivered: [buf += d.toString(); ...] *)
Definition feed (d : list Byte.byte) (buf : jsstring)
  : list jsstring * jsstring :=
  feed_text (Buffer_toString d) buf.

(** The framer over successive chunks: all lines yielded, the last [buf]. *)
Fixpoint feed_all (chunks : list (list Byte.byte)) (buf : jsstring)
  : list jsstring * jsstring :=
  match chunks with
  | [] => ([], buf)
  | d :: rest =>
    let '(l1, b1) := feed d buf in
    let '(l2, b2) := feed_all rest b1 in
    (l1 ++ l2, b2)
  end.

(** White space and line terminators of ECMAScript: what [trim()] strips
    and what [\s] matches. *)
Definition is_space (c : N) : bool :=
  (in_range 9 13 c || (c =? 32) || (c =? 160) || (c =? 5760)
   || in_range 8192 8202 c || (c =? 8232) || (c =? 8233) || (c =? 8239)
   || (c =? 8287) || (c =? 12288) || (c =? 65279))%N.

Fixpoint drop_spaces (s : jsstring) : jsstring :=
  match s with
  | c :: r => if is_space c then drop_spaces r else s
  | [] => []
  end.

(** [s.trim()] *)
Definition js_trim (s : jsstring) : jsstring :=
  reverse (drop_spaces (reverse (drop_spaces s))).

(** ** Values read from the worker's stream *)

(** What [JSON.parse] returns. An object is the list of its own properties. *)
#[local] Set Warnings "-register-all".
Inductive json :=
| JNull
| JBool (b : bool)
| JNum (x : float)
| JStr (s : jsstring)
| JArr (elems : list json)
| JObj (props : list (jsstring * json)).

(** A value read from a property: [None] is [undefined]. *)
Abbreviation jsval := (option json).

Fixpoint assoc (k : jsstring) (props : list (jsstring * json)) : jsval :=
  match props with
  | [] => None
  | (k', v) :: rest => if decide (k = k') then Some v else assoc k rest
  end.

(** [v.k] for a value [v] that is neither [null] nor [undefined], and a name
    [k] that the prototypes of strings, numbers, booleans and arrays do not
    define (the program reads [type], [subtype], [message], [content],
    [text], [result], [is_error] and [total_cost_usd] only). *)
Definition get (k : string) (v : json) : jsval :=
  match v with
  | JObj props => assoc (str k) props
  | _ => None
  end.

(** [ToBoolean]. *)
Definition truthy (v : jsval) : bool :=
  match v with
  | None | Some JNull => false
  | Some (JBool b) => b
  | Some (JNum x) => negb (PrimFloat.eqb x 0%float || PrimFloat.is_nan x)
  | Some (JStr s) => negb (bool_decide (s = []))
  | Some (JArr _) | Some (JObj _) => true
  end.

(** [v === 'lit'] *)
Definition is_str (lit : string) (v : jsval) : bool :=
  match v with
  | Some (JStr s) => bool_decide (s = str lit)
  | _ => false
  end.

(** The terminal result of a full-path invocation:
    [{ result, durationMs, costUsd }]. *)
Record outcome := Outcome {
  result : json;
  durationMs : Z;
  costUsd : jsval
}.

(** What the handlers of one [askClaude] call do to the outside. *)
Inductive action :=
| OnChunk (snapshot : jsstring)     (* onChunk(acc) *)
| Resolve (o : outcome)             (* resolve({...}) *)
| Reject (message : jsstring)       (* reject(new Error(message)) *)
| Kill                              (* proc.kill('SIGKILL') *)
| ConsoleLog (line : jsstring).     (* console.log('[cc]', ...) *)

(** What the runtime delivers to the handlers of one [askClaude] call. *)
Inductive proc_event :=
| StdoutData (now : Z) (d : list Byte.byte)   (* proc.stdout 'data' *)
| StderrData (d : list Byte.byte)             (* proc.stderr 'data' *)
| TimerFired                                  (* the setTimeout callback is due *)
| Close (code : option Z)                     (* 'close'; null after a signal *)
| ProcError (message : jsstring).             (* 'error' *)

(** The variables of the closure: [buf], [acc], [t0], and whether [timer]
    is still pending (not fired, not cleared). *)
Record proc_state := ProcState {
  buf : jsstring;
  acc : jsstring;
  t0 : Z;
  timer_armed : bool
}.

(** A promise: settled by the first [resolve] or [reject] call, later calls
    have no effect. *)
Inductive settlement :=
| Fulfilled (o : outcome)
| Rejected (message : jsstring).

Definition settle (p : option settlement) (a : action) : option settlement :=
  match p, a with
  | None, Resolve o => Some (Fulfilled o)
  | None, Reject m => Some (Rejected m)
  | _, _ => p
  end.

(** The state of the promise after the calls of [log], from pending. *)
Definition promise (log : list action) : option settlement :=
  foldl settle None log.

(** Whether call [a] changes the promise in state [p]. *)
Definition settles (p : option settlement) (a : action) : bool :=
  match p, a with
  | None, Resolve _ | None, Reject _ => true
  | _, _ => false
  end.

(** How many times the promise changes from pending to settled along [log],
    starting from state [p]. *)
Fixpoint settlements (p : option settlement) (log : list action) : nat :=
  match log with
  | [] => 0
  | a :: rest =>
    ((if settles p a then 1 else 0) + settlements (settle p a) rest)%nat
  end.

(** The snapshots passed to [onChunk], in order. *)
Definition snapshots (log : list action) : list jsstring :=
  omap (λ a, match a with OnChunk s => Some s | _ => None end) log.

(** ** [askClaude]: the process supervisor *)

(** The argument vector, environment and options given to [spawn]. *)
Inductive stdio_mode := ignore | pipe.

Record spawn_request := SpawnRequest {
  sp_args : list jsstring;
  sp_cwd : jsstring;
  sp_env : gmap jsstring jsstring;
  sp_stdio : list stdio_mode
}.

(** [const env = Object.assign({}, process.env);
     delete env.CLAUDECODE; delete env.ANTHROPIC_API_KEY;] *)
Definition worker_env (process_env : gmap jsstring jsstring)
  : gmap jsstring jsstring :=
  delete (str "ANTHROPIC_API_KEY") (delete (str "CLAUDECODE") process_env).

(** The synchronous part of [askClaude]: the [spawn] call and the initial
    closure. [cwd] is [None] when the caller passes [undefined]; an empty
    string is falsy too, so [cwd || WORK_DIR] falls back for both. *)
Definition askClaude_spawn (WORK_DIR : jsstring)
    (process_env : gmap jsstring jsstring)
    (text : jsstring) (continueSession : bool) (cwd : option jsstring)
  : spawn_request :=
  let args := [str "--dangerously-skip-permissions"; str "--model";
               str "claude-haiku-4-5-20251001"; str "--output-format";
               str "stream-json"; str "--verbose"] in
  let args := if continueSession then args ++ [str "--continue"] else args in
  let args := args ++ [str "-p"; text] in
  SpawnRequest args
    (match cwd with Some (c :: r) => c :: r | _ => WORK_DIR end)
    (worker_env process_env)
    [ignore; pipe; pipe].

Definition askClaude_init (now : Z) : proc_state := ProcState [] [] now true.

Section Worker.
(** [JSON.parse] on one line: [None] when it throws a [SyntaxError]. *)
Variable JSON_parse : jsstring -> option json.
(** [String(v)], used when a value that is not a string is appended to a
    string or becomes an error message. *)
Variable ToString : json -> jsstring.

Definition to_string (v : json) : jsstring :=
  match v with JStr s => s | _ => ToString v end.

(** [for (const b of ...) if (b.type === 'text' && b.text)
      { acc += b.text; onChunk(acc); }]
    The third component tells that the loop threw ([b] is [null]). *)
Fixpoint blocks_loop (bs : list json) (acc : jsstring)
  : jsstring * list action * bool :=
  match bs with
  | [] => (acc, [], false)
  | JNull :: _ => (acc, [], true)
  | b :: rest =>
    if is_str "text" (get "type" b) && truthy (get "text" b) then
      let acc' := acc ++ from_option to_string [] (get "text" b) in
      let '(a, out, threw) := blocks_loop rest acc' in
      (a, OnChunk acc' :: out, threw)
    else blocks_loop rest acc
  end.

(** [(ev.message && ev.message.content) || []] as the sequence the
    [for-of] iterates, [None] when the value is not iterable. A string
    iterates over its characters, which are strings again: the loop body
    does nothing on them. *)
Definition content_blocks (ev : json) : option (list json) :=
  match get "message" ev with
  | Some m =>
    if truthy (Some m) then
      match get "content" m with
      | Some c =>
        if truthy (Some c) then
          match c with
          | JArr l => Some l
          | JStr s => Some ((λ u, JStr [u]) <$> s)
          | _ => None
          end
        else Some []
      | None => Some []
      end
    else Some []
  | None => Some []
  end.

(** The two [if (ev.type === 'result' ...)] statements. *)
Definition result_actions (now : Z) (st : proc_state) (ev : json)
  : list action :=
  (if is_str "result" (get "type" ev) && is_str "success" (get "subtype" ev)
   then [Resolve (Outcome
                    (if truthy (get "result" ev)
                     then default JNull (get "result" ev)
                     else JStr (acc st))
                    (now - t0 st)
                    (get "total_cost_usd" ev))]
   else [])
  ++
  (if is_str "result" (get "type" ev) && truthy (get "is_error" ev)
   then [Reject (to_string (if truthy (get "result" ev)
                            then default JNull (get "result" ev)
                            else JStr (str "Claude error")))]
   else []).

(** The body of the [try] for one parsed line. An exception ends the body
    and is swallowed by [catch {}]; what was done before it stays done. *)
Definition on_event (now : Z) (ev : json) (st : proc_state)
  : proc_state * list action :=
  match ev with
  | JNull => (st, [])
  | _ =>
    if is_str "assistant" (get "type" ev) then
      match content_blocks ev with
      | None => (st, [])
      | Some bs =>
        let '(a, out, threw) := blocks_loop bs (acc st) in
        let st' := ProcState (buf st) a (t0 st) (timer_armed st) in
        if threw then (st', out)
        else (st', out ++ result_actions now st' ev)
      end
    else (st, result_actions now st ev)
  end.

(** One iteration of [for (const line of lines)]. *)
Definition on_line (now : Z) (line : jsstring) (st : proc_state)
  : proc_state * list action :=
  if bool_decide (js_trim line = []) then (st, [])
  else match JSON_parse line with
       | None => (st, [])
       | Some ev => on_event now ev st
       end.

Fixpoint on_lines (now : Z) (lines : list jsstring) (st : proc_state)
  : proc_state * list action :=
  match lines with
  | [] => (st, [])
  | line :: rest =>
    let '(st1, out1) := on_line now line st in
    let '(st2, out2) := on_lines now rest st1 in
    (st2, out1 ++ out2)
  end.

(** The ['data'] handler of [proc.stdout]. *)
Definition on_stdout (now : Z) (d : list Byte.byte) (st : proc_state)
  : proc_state * list action :=
  let '(lines, carry) := feed d (buf st) in
  on_lines now lines (ProcState carry (acc st) (t0 st) (timer_armed st)).

(** One event delivered to the handlers registered by [askClaude]. *)
Definition step (e : proc_event) (st : proc_state)
  : proc_state * list action :=
  match e with
  | StdoutData now d => on_stdout now d st
  | StderrData d =>
    let t := js_trim (Buffer_toString d) in
    (st, if bool_decide (t = []) then []
         else [ConsoleLog (str "[cc] " ++ take 150 t)])
  | TimerFired =>
    if timer_armed st
    then (ProcState (buf st) (acc st) (t0 st) false,
          [Kill; Reject (str "Timeout 5min")])
    else (st, [])
  | Close code =>
    (ProcState (buf st) (acc st) (t0 st) false,
     if bool_decide (code ≠ Some 0) && bool_decide (acc st = [])
     then [Reject (str "exit " ++
                   match code with
                   | Some c => str (pretty c)
                   | None => str "null"
                   end)]
     else [])
  | ProcError m =>
    (ProcState (buf st) (acc st) (t0 st) false, [Reject m])
  end.

(** The handlers run on a sequence of events. *)
Fixpoint run (evs : list proc_event) (st : proc_state)
  : proc_state * list action :=
  match evs with
  | [] => (st, [])
  | e :: rest =>
    let '(st1, out1) := step e st in
    let '(st2, out2) := run rest st1 in
    (st2, out1 ++ out2)
  end.
End Worker.

(** A line of the worker protocol and the event it parses to, for running
    the handlers on a concrete stream:
    [{"type":"assistant","message":{"content":[{"type":"text","text":"hi"}]}}] *)
Definition quoted (s : string) : jsstring := [34%N] ++ str s ++ [34%N].

Definition assistant_hi_line : jsstring :=
  str "{" ++ quoted "type" ++ str ":" ++ quoted "assistant" ++ str ","
  ++ quoted "message" ++ str ":{" ++ quoted "content" ++ str ":[{"
  ++ quoted "type" ++ str ":" ++ quoted "text" ++ str ","
  ++ quoted "text" ++ str ":" ++ quoted "hi" ++ str "}]}}".

Definition assistant_hi : json :=
  JObj [(str "type", JStr (str "assistant"));
        (str "message",
         JObj [(str "content",
                JArr [JObj [(str "type", JStr (str "text"));
                            (str "text", JStr (str "hi"))]])])].

(** The bytes of a text whose code units are all below 256, one each. *)
Definition bytes_of (s : jsstring) : list Byte.byte := omap Byte.of_N s.

(** A [JSON.parse] that knows this one line and rejects every other. *)
Definition parse_only_hi (line : jsstring) : option json :=
  if decide (line = assistant_hi_line) then Some assistant_hi else None.

(** ** [askSDK]: the fast path *)

Inductive role := user | assistant.

(** One entry of a [Message[]]: [{ role, content }]. *)
Record turn := Turn { turn_role : role; turn_content : jsstring }.

(** [const messages = [...history, { role: 'user', content: text }];] *)
Definition askSDK_messages (text : jsstring) (history : list turn)
  : list turn :=
  history ++ [Turn user text].

(** [let acc = ''; stream.on('text', (t) => { acc += t; onChunk(acc); });]
    run on the text deltas of the stream: the final [acc] and the snapshots
    passed to [onChunk]. *)
Fixpoint askSDK_stream (deltas : list jsstring) (acc : jsstring)
  : jsstring * list jsstring :=
  match deltas with
  | [] => (acc, [])
  | t :: rest =>
    let acc' := acc ++ t in
    let '(a, out) := askSDK_stream rest acc' in
    (a, acc' :: out)
  end.

(** [final.usage.input_tokens * 0.00000025
     + final.usage.output_tokens * 0.00000125] *)
#[local] Set Warnings "-inexact-float".
Definition askSDK_cost (input_tokens output_tokens : float) : float :=
  (input_tokens * 0.00000025 + output_tokens * 0.00000125)%float.

(** ** [handleMessage]: the session router *)

(** The fields of an inbound message that the handler reads. *)
Record message := Message {
  channel_type : option jsstring;
  user_id : option jsstring;
  subtype : option jsstring;
  text : option jsstring;
  channel : jsstring;
  ts : option jsstring;
  thread_ts : option jsstring
}.

(** The module-level state: [histories] (a [Map] from channel to a
    [Message[]], held by reference), the arrays those references denote, and
    [ccSessions] (a [Set] of channels). *)
Record store := Store {
  histories : gmap jsstring nat;
  arrays : list (list turn);
  ccSessions : gset jsstring
}.

Definition store_init : store := Store ∅ [] ∅.

(** The calls made on the chat client. *)
Inductive chat_call :=
| PostMessage (chan : jsstring) (thread : option jsstring) (body : jsstring)
| Update (chan : jsstring) (posted_ts : jsstring) (body : jsstring)
| ReactionAdd (chan : jsstring) (timestamp : option jsstring) (name : jsstring).

(** The invocation a handler starts. *)
Inductive invocation :=
| CallSDK (prompt : jsstring) (history : list turn)
| CallClaude (prompt : jsstring) (continueSession : bool) (cwd : jsstring).

Definition is_digit (c : N) : bool := in_range 48 57 c.

(** [\w] *)
Definition is_word (c : N) : bool :=
  in_range 48 57 c || in_range 65 90 c || (c =? 95)%N || in_range 97 122 c.

Fixpoint drop_digits (s : jsstring) : jsstring :=
  match s with
  | c :: r => if is_digit c then drop_digits r else s
  | [] => []
  end.

(** [const isValidTs = (ts) => ts && /^\d+\.\d+$/.test(ts);] *)
Definition isValidTs (ts : option jsstring) : bool :=
  match ts with
  | Some (c :: r) =>
    is_digit c &&
    match drop_digits r with
    | dot :: d :: r' => (dot =? 46)%N && is_digit d && forallb is_digit r'
    | _ => false
    end
  | _ => false
  end.

(** A literal of lower-case letters and punctuation matched at the start of
    [s] under the [i] flag: only the ASCII upper-case forms fold onto it. *)
Fixpoint starts_with_ci (lit s : jsstring) : bool :=
  match lit, s with
  | [], _ => true
  | p :: lit', c :: s' =>
    ((if in_range 65 90 c then c + 32 else c) =? p)%N && starts_with_ci lit' s'
  | _ :: _, [] => false
  end.

(** [/^quick:\s*/i.test(s)] and [s.replace(/^quick:\s*/i, '')] *)
Definition quick_test (s : jsstring) : bool := starts_with_ci (str "quick:") s.
Definition quick_strip (s : jsstring) : jsstring :=
  if quick_test s then drop_spaces (drop 6 s) else s.

(** [/^reset\b/i.test(s)] *)
Definition reset_test (s : jsstring) : bool :=
  starts_with_ci (str "reset") s &&
  match drop 5 s with
  | [] => true
  | c :: _ => negb (is_word c)
  end.

(** [hay.includes(needle)] *)
Fixpoint includes (hay needle : jsstring) : bool :=
  bool_decide (needle `prefix_of` hay) ||
  match hay with
  | [] => false
  | _ :: r => includes r needle
  end.

Definition REPOS : list (jsstring * jsstring) :=
  [ (str "tl-pony", str "/Users/kingsotn-twelve/work/tl-pony");
    (str "tl-openapi", str "/Users/kingsotn-twelve/work/tl-openapi");
    (str "rodeo", str "/Users/kingsotn-twelve/work/tl-api");
    (str "tl-api", str "/Users/kingsotn-twelve/work/tl-api") ].

(** [history.push({role:'user',...}, {role:'assistant',...});
     if (history.length > 20) history.splice(0, 2);] *)
Definition push_turn (history : list turn) (prompt reply : jsstring)
  : list turn :=
  let h := history ++ [Turn user prompt; Turn assistant reply] in
  if (20 <? length h)%nat then drop 2 h else h.

(** A history made of complete turns: a user entry followed by the
    assistant entry that answers it, again and again. *)
Fixpoint paired (h : list turn) : Prop :=
  match h with
  | [] => True
  | Turn user _ :: Turn assistant _ :: r => paired r
  | _ => False
  end.

(** The deployment: [process.env] once [dotenv] has run, and [DM_CHANNEL]
    as set at start-up. *)
Record config := Config {
  process_env : gmap jsstring jsstring;
  DM_CHANNEL : option jsstring
}.

Definition ALLOWED_USER (cfg : config) : option jsstring :=
  process_env cfg !! str "ALLOWED_USER_ID".
Definition WORK_DIR (cfg : config) : jsstring :=
  default [] (process_env cfg !! str "WORKING_DIR").
Definition API_KEY (cfg : config) : jsstring :=
  default [] (process_env cfg !! str "ANTHROPIC_API_KEY").
Definition USE_SDK (cfg : config) : bool :=
  bool_decide (str "sk-ant-api" `prefix_of` API_KEY cfg)
  || bool_decide (str "sk-ant-sid" `prefix_of` API_KEY cfg).

(** What a handler keeps between its [await]s. *)
Record waiting := Waiting {
  w_msg_ts : option jsstring;       (* message.ts *)
  w_chan : jsstring;
  w_key : jsstring;                 (* sessionKey *)
  w_quick : bool;                   (* isQuickMode *)
  w_text : jsstring;
  w_spawnDir : jsstring
}.

Record inflight := Inflight {
  f_wait : waiting;
  f_posted : jsstring;              (* posted.ts *)
  f_throttle : throttle;            (* lastText, lastAt *)
  f_t0 : Z;
  f_history : nat                   (* the array [history] refers to; not
                                       read on the full path *)
}.

(** How the awaited invocation ended. *)
Inductive ending :=
| SDKDone (reply : jsstring) (cost : float)   (* askSDK returned {result, cost} *)
| ClaudeDone (o : outcome)                    (* askClaude resolved *)
| Failed (message : jsstring).                (* either one rejected *)

(** How [await askClaude(...)] ends when the promise has settled as [r]. *)
Definition ending_of (r : settlement) : ending :=
  match r with
  | Fulfilled o => ClaudeDone o
  | Rejected m => Failed m
  end.

(** The calls that throw a [TypeError] when the outcome of [askClaude] is
    not a text with a numeric cost: [out.costUsd.toFixed(4)] on a value
    that has no [toFixed], and in [trim] [t.slice(...)] on a value that has
    no [slice] and [t.length] on [null]. *)
Inductive throw_site := costUsd_toFixed | t_slice | t_length.

(** How a call of the chat client that the handler awaits ends. *)
Inductive response :=
| Accepted
| Refused (message : jsstring).

(** What a handler that has been given its placeholder awaits: the
    invocation, the final update, the update of the [catch] branch, or
    its reaction. *)
Inductive awaiting := Invocation | FinalUpdate | ErrorUpdate | LastReaction.

Section Router.
Variable cfg : config.
(** [s.toLowerCase()] *)
Variable toLowerCase : jsstring -> jsstring.
(** [fmtMs(ms)] and [x.toFixed(4)]: number formatting. *)
Variable fmtMs : Z -> jsstring.
Variable toFixed4 : float -> jsstring.
(** [String(v)] for a value that is not a string, [Number(s)] for a
    string, and [err.message] of the [TypeError] thrown at a site. *)
Variable ToString : json -> jsstring.
Variable StringToNumber : jsstring -> float.
Variable TypeError_message : throw_site -> jsstring.

(** [for (const [name, dir] of Object.entries(REPOS))
      if (text.toLowerCase().includes(name.toLowerCase()))
        { spawnDir = dir; break; }] *)
Fixpoint pick_repo (repos : list (jsstring * jsstring)) (text : jsstring)
  (spawnDir : jsstring) : jsstring :=
  match repos with
  | [] => spawnDir
  | (name, dir) :: rest =>
    if includes (toLowerCase text) (toLowerCase name) then dir
    else pick_repo rest text spawnDir
  end.

(** [' · reply to continue · reset_'] *)
Definition meta_tail : jsstring :=
  str " " ++ [183%N] ++ str " reply to continue " ++ [183%N] ++ str " reset_".

(** [handleMessage] up to its first [await]: the guards, the mode, the
    reset command, the working directory and the placeholder post. *)
Definition handleMessage_begin (m : message) (s : store)
  : store * list chat_call * option waiting :=
  if negb (bool_decide (channel_type m = Some (str "im"))) then (s, [], None)
  else if negb (bool_decide (user_id m = ALLOWED_USER cfg)) then (s, [], None)
  else if negb (bool_decide (default [] (subtype m) = [])) then (s, [], None)
  else
    let rawText := js_trim (default [] (text m)) in
    if bool_decide (rawText = []) then (s, [], None)
    else
      let chan := match DM_CHANNEL cfg with
                  | Some (c :: r) => c :: r
                  | _ => channel m
                  end in
      let sessionKey := channel m in
      let replyThread :=
        if isValidTs (thread_ts m) then thread_ts m
        else if isValidTs (ts m) then ts m else None in
      let isQuickMode := USE_SDK cfg && quick_test rawText in
      let text := if isQuickMode then quick_strip rawText else rawText in
      if reset_test text then
        (Store (delete sessionKey (histories s)) (arrays s)
               (ccSessions s ∖ {[sessionKey]}),
         [PostMessage chan replyThread (str "Reset.")], None)
      else
        let spawnDir := pick_repo REPOS text (WORK_DIR cfg) in
        (s,
         [PostMessage chan replyThread
            (if isQuickMode then str "_..._" else str "_cc..._")],
         Some (Waiting (ts m) chan sessionKey isQuickMode text spawnDir)).

(** From the placeholder post to the call of [askSDK] or [askClaude].
    [posted] is [posted.ts], or [None] when the post failed ([null]). *)
Definition handleMessage_posted (w : waiting) (posted : option jsstring)
  (now : Z) (s : store) : store * option (inflight * invocation) :=
  match posted with
  | None => (s, None)
  | Some p =>
    if w_quick w then
      match histories s !! w_key w with
      | Some r =>
        (s, Some (Inflight w p throttle_init now r,
                  CallSDK (w_text w) (default [] (arrays s !! r))))
      | None =>
        let r := length (arrays s) in
        (Store (histories s) (arrays s ++ [[]]) (ccSessions s),
         Some (Inflight w p throttle_init now r, CallSDK (w_text w) []))
      end
    else
      (s, Some (Inflight w p throttle_init now 0%nat,
                CallClaude (w_text w)
                  (bool_decide (w_key w ∈ ccSessions s)) (w_spawnDir w)))
  end.

(** [onChunk(acc)] while the invocation runs: one [liveUpdate] call. *)
Definition handleMessage_chunk (now : Z) (snapshot : jsstring)
  (f : inflight) : inflight * list chat_call :=
  let '(th, o) := liveUpdate now snapshot (f_throttle f) in
  (Inflight (f_wait f) (f_posted f) th (f_t0 f) (f_history f),
   from_option (λ t, [Update (w_chan (f_wait f)) (f_posted f) t]) [] o).

Fixpoint handleMessage_chunks (calls : list (Z * jsstring)) (f : inflight)
  : inflight * list chat_call :=
  match calls with
  | [] => (f, [])
  | (now, snapshot) :: rest =>
    let '(f1, out1) := handleMessage_chunk now snapshot f in
    let '(f2, out2) := handleMessage_chunks rest f1 in
    (f2, out1 ++ out2)
  end.

(** [meta] of the two paths. *)
Definition meta_quick (elapsed : Z) (cost : float) : jsstring :=
  [10%N; 10%N] ++ str "_quick " ++ fmtMs elapsed ++ str " $"
    ++ toFixed4 cost ++ meta_tail.

(** [out.costUsd ? ' $' + out.costUsd.toFixed(4) : ''] *)
Definition costStr (c : jsval) : jsstring + throw_site :=
  if truthy c then
    match c with
    | Some (JNum x) => inl (str " $" ++ toFixed4 x)
    | _ => inr costUsd_toFixed
    end
  else inl [].

Definition meta_cc (durationMs : Z) (costStr : jsstring) : jsstring :=
  [10%N; 10%N] ++ str "_cc " ++ fmtMs durationMs ++ costStr ++ meta_tail.

(** [v <= 3800] for a property value [v]: [ToNumber(v) <= 3800], which is
    [false] for [NaN] ([undefined] included). *)
Definition within_3800 (v : jsval) : bool :=
  match v with
  | None => false
  | Some JNull | Some (JBool _) => true
  | Some (JNum x) => PrimFloat.leb x 3800
  | Some (JStr s) => PrimFloat.leb (StringToNumber s) 3800
  | Some v => PrimFloat.leb (StringToNumber (ToString v)) 3800
  end.

(** [trim(result)] for whatever [askClaude] resolved with. A string is
    trimmed; an array has a [length] and a [slice] too; an object has the
    [length] it was given and no [slice]; a number or a boolean has
    neither. *)
Definition trim_value (t : json) : json + throw_site :=
  match t with
  | JStr s => inl (JStr (trim s None))
  | JArr elems =>
    if bool_decide (length elems <= 3800)%nat then inl t
    else inl (JStr (str "..."
                    ++ ToString (JArr (drop (length elems - 3797) elems))))
  | JObj props =>
    if within_3800 (assoc (str "length") props) then inl t else inr t_slice
  | JNum _ | JBool _ => inr t_slice
  | JNull => inr t_length
  end.

(** [trim(result) + meta] on the full path, [costStr] being evaluated
    first: the text, or the site that throws. *)
Definition claude_text (meta : Z -> jsstring -> jsstring) (o : outcome)
  : jsstring + throw_site :=
  match costStr (costUsd o) with
  | inr site => inr site
  | inl c =>
    match trim_value (result o) with
    | inr site => inr site
    | inl v => inl (to_string ToString v ++ meta (durationMs o) c)
    end
  end.

(** The continuation of [await askSDK(...)] or [await askClaude(...)] up
    to its next [await]: the bookkeeping of the mode and the call of the
    final update, or, when the invocation was rejected or building the
    text of the final update throws, the call of the update of the [catch]
    branch. [now] is [Date.now()], read on the fast path only. *)
Definition handleMessage_settled (f : inflight) (e : ending) (now : Z)
  (s : store) : store * list chat_call :=
  let w := f_wait f in
  match e with
  | SDKDone reply cost =>
    let history := push_turn (default [] (arrays s !! f_history f))
                             (w_text w) reply in
    (Store (<[w_key w := f_history f]> (histories s))
           (<[f_history f := history]> (arrays s))
           (ccSessions s),
     [Update (w_chan w) (f_posted f)
        (trim reply None ++ meta_quick (now - f_t0 f) cost)])
  | ClaudeDone o =>
    (Store (histories s) (arrays s) ({[w_key w]} ∪ ccSessions s),
     [Update (w_chan w) (f_posted f)
        match claude_text meta_cc o with
        | inl text => text
        | inr site => str "Error: " ++ TypeError_message site
        end])
  | Failed msg =>
    (s, [Update (w_chan w) (f_posted f) (str "Error: " ++ msg)])
  end.

(** The call whose end the handler awaits after that. *)
Definition settled_awaits (e : ending) : awaiting :=
  match e with
  | SDKDone _ _ => FinalUpdate
  | ClaudeDone o =>
    match claude_text meta_cc o with
    | inl _ => FinalUpdate
    | inr _ => ErrorUpdate
    end
  | Failed _ => ErrorUpdate
  end.

(** The handler when the call it awaits has ended with [r]: after the
    final update the reaction, or the [catch] branch when the update was
    refused; after the update of the [catch] branch, whose failure is
    swallowed, the reaction [x]; after the reaction, whose failure is
    swallowed, the return. The result is the call made and what is
    awaited next ([None] when the handler has returned). *)
Definition handleMessage_resumed (f : inflight) (a : awaiting) (r : response)
  : list chat_call * option awaiting :=
  let w := f_wait f in
  match a, r with
  | Invocation, _ => ([], Some Invocation)
  | FinalUpdate, Accepted =>
    ([ReactionAdd (w_chan w) (w_msg_ts w) (str "white_check_mark")],
     Some LastReaction)
  | FinalUpdate, Refused msg =>
    ([Update (w_chan w) (f_posted f) (str "Error: " ++ msg)],
     Some ErrorUpdate)
  | ErrorUpdate, _ =>
    ([ReactionAdd (w_chan w) (w_msg_ts w) (str "x")], Some LastReaction)
  | LastReaction, _ => ([], None)
  end.
End Router.

(** ** A handler and its invocation on the event loop *)

(** What [askSDK] reacts to: a ['text'] event of the stream, and the
    promise of [stream.finalMessage()] resolving with a message whose
    [usage] holds the two token counts, or rejecting. *)
Inductive stream_event :=
| Text (t : jsstring)
| FinalMessage (input_tokens output_tokens : float)
| StreamError (message : jsstring).

(** What the event loop delivers to a handler that has started its
    invocation: an event of the worker process (full path), an event of
    the stream (fast path), or the end of the call of the chat client that
    the handler awaits. *)
Inductive handler_event :=
| Worker (e : proc_event)
| Stream (e : stream_event)
| ChatClient (r : response).

(** The closure of the invocation: that of [askClaude], or [acc] of
    [askSDK]. *)
Inductive invoked :=
| InClaude (st : proc_state)
| InSDK (acc : jsstring).

(** A handler between two events: the closure of its invocation, its own
    closure, what it awaits ([None] when it has returned), how many times
    it has come to a point where it reads the clock (a call of
    [liveUpdate], the continuation of the invocation), and the module
    state. Other handlers, which this state machine leaves out, can change
    the module state between two events; the calls of the handler do not
    depend on it. *)
Record handler := Handler {
  h_invoked : invoked;
  h_flight : inflight;
  h_awaits : option awaiting;
  h_reads : nat;
  h_store : store
}.

(** The calls [liveUpdate(t)] for the snapshots [snaps], the [k]-th
    reading of the clock being the first. *)
Fixpoint timed (clock : nat -> Z) (k : nat) (snaps : list jsstring)
  : list (Z * jsstring) :=
  match snaps with
  | [] => []
  | t :: rest => (clock k, t) :: timed clock (S k) rest
  end.

Section Handler.
Variable JSON_parse : jsstring -> option json.
Variable fmtMs : Z -> jsstring.
Variable toFixed4 : float -> jsstring.
Variable ToString : json -> jsstring.
Variable StringToNumber : jsstring -> float.
Variable TypeError_message : throw_site -> jsstring.
(** [clock k]: what [Date.now()] returns at the [k]-th point where the
    handler reads it. *)
Variable clock : nat -> Z.

(** One event in the handlers of the invocation: the new closure, the
    snapshots passed to [onChunk], and how the promise the handler awaits
    is settled by the first [resolve] or [reject] of this event, if any
    (which has no effect when it was settled before). The handlers stay
    registered when the promise has settled. *)
Definition on_invocation_event (ev : handler_event) (inv : invoked)
  : invoked * list jsstring * option ending :=
  match ev, inv with
  | Worker e, InClaude st =>
    let '(st1, out) := step JSON_parse ToString e st in
    (InClaude st1, snapshots out, ending_of <$> promise out)
  | Stream (Text t), InSDK acc => (InSDK (acc ++ t), [acc ++ t], None)
  | Stream (FinalMessage input_tokens output_tokens), InSDK acc =>
    (inv, [], Some (SDKDone acc (askSDK_cost input_tokens output_tokens)))
  | Stream (StreamError msg), InSDK acc => (inv, [], Some (Failed msg))
  | _, _ => (inv, [], None)
  end.

(** What follows an event of the invocation whose handler has made the
    [onChunk] calls [snaps] and has settled the awaited promise as
    [settled] tells: every [onChunk] was a call of [liveUpdate], and when
    the promise the handler awaits has just been settled, the continuation
    of the [await] runs next, before any other event. *)
Definition handle_invoked (r : invoked * list jsstring * option ending)
  (h : handler) : handler * list chat_call :=
  let '(inv, snaps, settled) := r in
  let '(f, live) :=
    handleMessage_chunks (timed clock (h_reads h) snaps) (h_flight h) in
  let n := (h_reads h + length snaps)%nat in
  match h_awaits h, settled with
  | Some Invocation, Some e =>
    let '(s, calls) :=
      handleMessage_settled fmtMs toFixed4 ToString StringToNumber
        TypeError_message f e (clock n) (h_store h) in
    (Handler inv f
       (Some (settled_awaits fmtMs toFixed4 ToString StringToNumber e))
       (S n) s,
     live ++ calls)
  | _, _ => (Handler inv f (h_awaits h) n (h_store h), live)
  end.

(** One event of the loop: an event of the invocation runs its handler to
    the end; the end of the awaited call of the chat client resumes the
    handler. *)
Definition handle (ev : handler_event) (h : handler)
  : handler * list chat_call :=
  match ev with
  | ChatClient r =>
    match h_awaits h with
    | Some a =>
      let '(calls, a') := handleMessage_resumed (h_flight h) a r in
      (Handler (h_invoked h) (h_flight h) a' (h_reads h) (h_store h), calls)
    | None => (h, [])
    end
  | _ => handle_invoked (on_invocation_event ev (h_invoked h)) h
  end.

Fixpoint handler_run (evs : list handler_event) (h : handler)
  : handler * list chat_call :=
  match evs with
  | [] => (h, [])
  | ev :: rest =>
    let '(h1, out1) := handle ev h in
    let '(h2, out2) := handler_run rest h1 in
    (h2, out1 ++ out2)
  end.
End Handler.


(** ** Notions used in the statements *)

(** The value last forwarded to the chat surface and the clock value of
    that forward, read from the log of forwards ([''] and [0] before the
    first one, as [lastText] and [lastAt] start). *)
Definition last_forwarded (out : list (Z * jsstring)) : jsstring :=
  from_option snd [] (last out).
Definition last_forward_at (out : list (Z * jsstring)) : Z :=
  from_option fst 0 (last out).

(** The suppression rule as the design states it: after the calls [calls],
    the call [liveUpdate(t)] at [now] forwards iff the truncated [t] differs
    from the value last forwarded and 600ms have passed since. *)
Definition forwards_iff_new_and_due
    (calls : list (Z * jsstring)) (now : Z) (t : jsstring) : Prop :=
  let '(st, out) := liveUpdates calls throttle_init in
  is_Some (liveUpdate now t st).2
  ↔ trim t None ≠ last_forwarded out ∧ 600 <= now - last_forward_at out.

(** Three successive states of an accumulator that grows by ["a"] and then
    by ["b"], past the display budget: 3802, 3803 and 3804 code units. *)
Definition abab : jsstring := mjoin (replicate 1901 (str "ab")).
Definition grown_calls : list (Z * jsstring) :=
  [(1000, abab); (1100, abab ++ str "a")].

(** The texts the chat surface is asked to show by [client.chat.update],
    in order. *)
Definition updates (log : list chat_call) : list jsstring :=
  omap (λ c, match c with Update _ _ body => Some body | _ => None end) log.

(** A handler in full mode that has just posted its placeholder. *)
Definition sample_inflight : inflight :=
  Inflight (Waiting (Some (str "1.2")) (str "D1") (str "D1") false
              (str "hello") (str "/work"))
           (str "3.4") throttle_init 0 0%nat.

(** The framer over successive chunks of text that is already decoded. *)
Fixpoint feed_texts (chunks : list jsstring) (buf : jsstring)
  : list jsstring * jsstring :=
  match chunks with
  | [] => ([], buf)
  | d :: rest =>
    let '(l1, b1) := feed_text d buf in
    let '(l2, b2) := feed_texts rest b1 in
    (l1 ++ l2, b2)
  end.

Definition ascii_only (d : list Byte.byte) : Prop :=
  Forall (λ b, (Byte.to_N b < 128)%N) d.

(** Each snapshot of [l] extends the one before, the first one extends [a]. *)
Fixpoint chain_from (a : jsstring) (l : list jsstring) : Prop :=
  match l with
  | [] => True
  | s :: r => a `prefix_of` s ∧ chain_from s r
  end.

(** Successive snapshots: the earlier is a prefix of the later and is not
    longer. *)
Definition growing (l : list jsstring) : Prop :=
  ∀ i a b, l !! i = Some a -> l !! S i = Some b ->
           a `prefix_of` b ∧ (length a <= length b)%nat.

(** [l] grows from [a] and ends within [a']. *)
Definition grows_to (a : jsstring) (l : list jsstring) (a' : jsstring)
  : Prop :=
  chain_from a l ∧ default a (last l) `prefix_of` a'.

(** Nothing is stored for [k]: no history and no continuation marker. *)
Definition cleared (k : jsstring) (s : store) : Prop :=
  histories s !! k = None ∧ k ∉ ccSessions s.

Section Quiet.
Variable cfg : config.
Variable toLowerCase : jsstring -> jsstring.
Variable fmtMs : Z -> jsstring.
Variable toFixed4 : float -> jsstring.
Variable ToString : json -> jsstring.
Variable StringToNumber : jsstring -> float.
Variable TypeError_message : throw_site -> jsstring.

(** What handlers do to the store as long as no invocation for the key
    [k] settles: any handler may start or pass its placeholder post, and
    invocations of other keys may settle. *)
Inductive quiet (k : jsstring) : store -> store -> Prop :=
| quiet_begin m s :
    quiet k s (handleMessage_begin cfg toLowerCase m s).1.1
| quiet_posted w posted now s :
    quiet k s (handleMessage_posted w posted now s).1
| quiet_settled f e now s :
    w_key (f_wait f) ≠ k ->
    quiet k s (handleMessage_settled fmtMs toFixed4 ToString StringToNumber
                 TypeError_message f e now s).1.
End Quiet.

(** [toLowerCase] on ASCII text. *)
Definition ascii_lower (s : jsstring) : jsstring :=
  (λ c, if in_range 65 90 c then (c + 32)%N else c) <$> s.

Definition sample_config : config :=
  Config (<[str "ALLOWED_USER_ID" := str "U1"]>
            {[str "WORKING_DIR" := str "/work"]})
         None.

Definition sample_reset : message :=
  Message (Some (str "im")) (Some (str "U1")) None (Some (str "Reset now"))
          (str "D1") (Some (str "10.5")) None.

Definition ten_turns : list turn :=
  mjoin (replicate 10 [Turn user (str "q"); Turn assistant (str "a")]).

Definition sample_store : store :=
  Store {[str "D1" := 0%nat]} [ten_turns] {[str "D1"]}.

Definition sample_quick_inflight : inflight :=
  Inflight (Waiting (Some (str "11.5")) (str "D1") (str "D1") true
              (str "next") (str "/work"))
           (str "12.5") throttle_init 0 0%nat.

Definition sample_waiting : waiting :=
  Waiting (Some (str "13.5")) (str "D1") (str "D1") false
          (str "hello") (str "/work").

Definition sample_config_sdk : config :=
  Config (<[str "ANTHROPIC_API_KEY" := str "sk-ant-api03-k"]>
            (process_env sample_config))
         None.

Definition sample_hello : message :=
  Message (Some (str "im")) (Some (str "U1")) None (Some (str "hello"))
          (str "D1") (Some (str "9.5")) None.

Definition sample_quick : message :=
  Message (Some (str "im")) (Some (str "U1")) None (Some (str "quick: hi"))
          (str "D1") (Some (str "9.5")) None.

(** A handler from the arrival of [m] to its invocation, the placeholder
    post succeeding with [posted] before any other handler runs. *)
Definition start (cfg : config) (m : message) (posted : jsstring) (now : Z)
    (s : store) : store * option (inflight * invocation) :=
  let b := handleMessage_begin cfg ascii_lower m s in
  match b.2 with
  | Some w => handleMessage_posted w (Some posted) now b.1.1
  | None => (b.1.1, None)
  end.

(** A reset that arrives while an invocation for the same key is running:
    message [m] starts its invocation in store [s], the reset command is
    handled, the invocation of [m] settles with [e], and [m] is sent again.
    The result is the invocation the second [m] starts. *)
Definition reset_race (cfg : config) (m : message) (e : ending) (s : store)
  : option invocation :=
  let a := start cfg m (str "9.6") 100 s in
  match a.2 with
  | Some (f, _) =>
    let r := handleMessage_begin cfg ascii_lower sample_reset a.1 in
    let s2 := (handleMessage_settled (λ _, str "1.0s") (λ _, str "0.0001")
                 (λ _, []) (λ _, 0%float) (λ _, []) f e 2000 r.1.1).1 in
    snd <$> (start cfg m (str "9.7") 3000 s2).2
  | None => None
  end.

(** ** Notions used in the further statements *)

(** [pieces.join('\n')], the inverse of [split('\n')]. *)
Fixpoint join_nl (pieces : list jsstring) : jsstring :=
  match pieces with
  | [] => []
  | [l] => l
  | l :: rest => l ++ 10%N :: join_nl rest
  end.

(** A text without a line feed. *)
Definition no_lf (s : jsstring) : Prop := 10%N ∉ s.

(** How often [proc.kill('SIGKILL')] is called in [log]. *)
Fixpoint kills (log : list action) : nat :=
  match log with
  | [] => 0
  | Kill :: rest => S (kills rest)
  | _ :: rest => kills rest
  end.

(** [log] without its [console.log] calls. *)
Fixpoint without_logs (log : list action) : list action :=
  match log with
  | [] => []
  | ConsoleLog _ :: rest => without_logs rest
  | a :: rest => a :: without_logs rest
  end.

(** The events other than the chunks of [proc.stderr]. *)
Fixpoint without_stderr (evs : list proc_event) : list proc_event :=
  match evs with
  | [] => []
  | StderrData _ :: rest => without_stderr rest
  | e :: rest => e :: without_stderr rest
  end.

(** The calls a ['data'] handler of [proc.stdout] can make. *)
Definition stream_action (a : action) : Prop :=
  match a with
  | OnChunk _ | Resolve _ | Reject _ => True
  | Kill | ConsoleLog _ => False
  end.

(** The text of the [console.log] calls of [log]. *)
Definition logged (log : list action) : list jsstring :=
  omap (λ a, match a with ConsoleLog l => Some l | _ => None end) log.

(** A line the stdout handler passes over: blank, not JSON, or JSON whose
    [type] is neither ['assistant'] nor ['result']. *)
Definition skipped (JSON_parse : jsstring -> option json) (line : jsstring)
  : Prop :=
  js_trim line = []
  ∨ JSON_parse line = None
  ∨ ∃ ev, JSON_parse line = Some ev
          ∧ is_str "assistant" (get "type" ev) = false
          ∧ is_str "result" (get "type" ev) = false.

(** Forwards that are at least 600ms apart, the first one at least 600ms
    after [from]. *)
Fixpoint spaced (from : Z) (log : list (Z * jsstring)) : Prop :=
  match log with
  | [] => True
  | (at_, _) :: rest => 600 <= at_ - from ∧ spaced at_ rest
  end.

(** A message the handler returns on before doing anything: not from a
    direct-message channel, not from the allowed user, with a subtype, or
    with no text but white space. *)
Definition ignored (cfg : config) (m : message) : Prop :=
  channel_type m ≠ Some (str "im")
  ∨ user_id m ≠ ALLOWED_USER cfg
  ∨ default [] (subtype m) ≠ []
  ∨ js_trim (default [] (text m)) = [].

(** [needle] occurs in [hay]. *)
Definition occurs_in (needle hay : jsstring) : Prop :=
  ∃ pre post, hay = pre ++ needle ++ post.

(** A text of decimal digits. *)
Definition digits (s : jsstring) : Prop := Forall (λ c, is_digit c = true) s.

(** The closure with its timer flag replaced. *)
Definition set_timer (armed : bool) (st : proc_state) : proc_state :=
  ProcState (buf st) (acc st) (t0 st) armed.

(** ** [index.js]: the script without the [quick:] prefix

    Its [askClaude] registers no handler on [proc.stderr] and its ['error']
    handler is [reject] itself, which leaves the timer pending. Its message
    handler keys the state by thread ([message.thread_ts || message.ts]),
    runs every message through the SDK when [USE_SDK] holds and through
    Claude Code otherwise, and always spawns in [WORK_DIR]. *)
Module IndexJs.

Section Worker.
Variable JSON_parse : jsstring -> option json.
Variable ToString : json -> jsstring.

Definition step (e : proc_event) (st : proc_state)
  : proc_state * list action :=
  match e with
  | StdoutData now d => on_stdout JSON_parse ToString now d st
  | StderrData _ => (st, [])
  | TimerFired =>
    if timer_armed st
    then (ProcState (buf st) (acc st) (t0 st) false,
          [Kill; Reject (str "Timeout 5min")])
    else (st, [])
  | Close code =>
    (ProcState (buf st) (acc st) (t0 st) false,
     if bool_decide (code ≠ Some 0) && bool_decide (acc st = [])
     then [Reject (str "exit " ++
                   match code with
                   | Some c => str (pretty c)
                   | None => str "null"
                   end)]
     else [])
  | ProcError m => (st, [Reject m])
  end.

Fixpoint run (evs : list proc_event) (st : proc_state)
  : proc_state * list action :=
  match evs with
  | [] => (st, [])
  | e :: rest =>
    let '(st1, out1) := step e st in
    let '(st2, out2) := run rest st1 in
    (st2, out1 ++ out2)
  end.
End Worker.

(** [histories] and [sessions], keyed by [threadTs], which is [undefined]
    ([None]) for a message that has neither time stamp. *)
Record store := Store {
  histories : gmap (option jsstring) nat;
  arrays : list (list turn);
  sessions : gset (option jsstring)
}.

Definition store_init : store := Store ∅ [] ∅.

(** [message.thread_ts || message.ts] *)
Definition threadTs (m : message) : option jsstring :=
  match thread_ts m with
  | Some (c :: r) => Some (c :: r)
  | _ => ts m
  end.

Record waiting := Waiting {
  w_msg_ts : option jsstring;
  w_chan : jsstring;
  w_key : option jsstring;          (* threadTs *)
  w_text : jsstring
}.

Record inflight := Inflight {
  f_wait : waiting;
  f_posted : jsstring;
  f_throttle : throttle;
  f_t0 : Z;
  f_history : nat
}.

Section Handler.
Variable cfg : config.
Variable fmtMs : Z -> jsstring.
Variable toFixed4 : float -> jsstring.
Variable ToString : json -> jsstring.
Variable StringToNumber : jsstring -> float.
Variable TypeError_message : throw_site -> jsstring.

(** The handler up to its first [await]. *)
Definition handleMessage_begin (m : message) (s : store)
  : store * list chat_call * option waiting :=
  if negb (bool_decide (channel_type m = Some (str "im"))) then (s, [], None)
  else if negb (bool_decide (user_id m = ALLOWED_USER cfg)) then (s, [], None)
  else if negb (bool_decide (default [] (subtype m) = [])) then (s, [], None)
  else
    let text := js_trim (default [] (text m)) in
    if bool_decide (text = []) then (s, [], None)
    else
      let chan := match DM_CHANNEL cfg with
                  | Some (c :: r) => c :: r
                  | _ => channel m
                  end in
      if reset_test text then
        (Store (delete (threadTs m) (histories s)) (arrays s)
               (sessions s ∖ {[threadTs m]}),
         [PostMessage chan (threadTs m) (str "Reset.")], None)
      else
        (s, [PostMessage chan (threadTs m) (str "_..._")],
         Some (Waiting (ts m) chan (threadTs m) text)).

(** From the placeholder post to the call of [askSDK] or [askClaude]. *)
Definition handleMessage_posted (w : waiting) (posted : option jsstring)
  (now : Z) (s : store) : store * option (inflight * invocation) :=
  match posted with
  | None => (s, None)
  | Some p =>
    if USE_SDK cfg then
      match histories s !! w_key w with
      | Some r =>
        (s, Some (Inflight w p throttle_init now r,
                  CallSDK (w_text w) (default [] (arrays s !! r))))
      | None =>
        let r := length (arrays s) in
        (Store (histories s) (arrays s ++ [[]]) (sessions s),
         Some (Inflight w p throttle_init now r, CallSDK (w_text w) []))
      end
    else
      (s, Some (Inflight w p throttle_init now 0%nat,
                CallClaude (w_text w)
                  (bool_decide (w_key w ∈ sessions s)) (WORK_DIR cfg)))
  end.

(** ['\n\n_' + fmtMs(...) + ... + ' · reply to continue · reset_'] *)
Definition meta_sdk (elapsed : Z) (cost : float) : jsstring :=
  [10%N; 10%N] ++ str "_" ++ fmtMs elapsed ++ str " $"
    ++ toFixed4 cost ++ meta_tail.

Definition meta_claude (durationMs : Z) (costStr : jsstring) : jsstring :=
  [10%N; 10%N] ++ str "_" ++ fmtMs durationMs ++ costStr ++ meta_tail.

(** The continuation of the awaited invocation up to its next [await]. *)
Definition handleMessage_settled (f : inflight) (e : ending) (now : Z)
  (s : store) : store * list chat_call :=
  let w := f_wait f in
  match e with
  | SDKDone reply cost =>
    let history := push_turn (default [] (arrays s !! f_history f))
                             (w_text w) reply in
    (Store (<[w_key w := f_history f]> (histories s))
           (<[f_history f := history]> (arrays s))
           (sessions s),
     [Update (w_chan w) (f_posted f)
        (trim reply None ++ meta_sdk (now - f_t0 f) cost)])
  | ClaudeDone o =>
    (Store (histories s) (arrays s) ({[w_key w]} ∪ sessions s),
     [Update (w_chan w) (f_posted f)
        match claude_text toFixed4 ToString StringToNumber meta_claude o with
        | inl text => text
        | inr site => str "Error: " ++ TypeError_message site
        end])
  | Failed msg =>
    (s, [Update (w_chan w) (f_posted f) (str "Error: " ++ msg)])
  end.

(** The call whose end the handler awaits after that. *)
Definition settled_awaits (e : ending) : awaiting :=
  match e with
  | SDKDone _ _ => FinalUpdate
  | ClaudeDone o =>
    match claude_text toFixed4 ToString StringToNumber meta_claude o with
    | inl _ => FinalUpdate
    | inr _ => ErrorUpdate
    end
  | Failed _ => ErrorUpdate
  end.

(** The handler when the call it awaits has ended with [r]. *)
Definition handleMessage_resumed (f : inflight) (a : awaiting) (r : response)
  : list chat_call * option awaiting :=
  let w := f_wait f in
  match a, r with
  | Invocation, _ => ([], Some Invocation)
  | FinalUpdate, Accepted =>
    ([ReactionAdd (w_chan w) (w_msg_ts w) (str "white_check_mark")],
     Some LastReaction)
  | FinalUpdate, Refused msg =>
    ([Update (w_chan w) (f_posted f) (str "Error: " ++ msg)],
     Some ErrorUpdate)
  | ErrorUpdate, _ =>
    ([ReactionAdd (w_chan w) (w_msg_ts w) (str "x")], Some LastReaction)
  | LastReaction, _ => ([], None)
  end.
End Handler.
End IndexJs.

(** The number of line feeds in a text or in a sequence of bytes. *)
Fixpoint lfs (s : list N) : nat :=
  match s with
  | [] => 0
  | c :: r => if (c =? 10)%N then S (lfs r) else lfs r
  end.

(** A call on the placeholder message of the handler [f], or a reaction on
    the message it answers. *)
Definition own_call (f : inflight) (c : chat_call) : Prop :=
  match c with
  | Update chan posted _ =>
    chan = w_chan (f_wait f) ∧ posted = f_posted f
  | ReactionAdd chan ts_ _ =>
    chan = w_chan (f_wait f) ∧ ts_ = w_msg_ts (f_wait f)
  | PostMessage _ _ _ => False
  end.

(** ** Sample values *)

(** [{"type":"result","is_error":true,"result":"boom"}] *)
Definition sample_result_error : json :=
  JObj [(str "type", JStr (str "result"));
        (str "is_error", JBool true);
        (str "result", JStr (str "boom"))].

(** A handler in quick mode that has read its message. *)
Definition sample_quick_waiting : waiting :=
  Waiting (Some (str "13.5")) (str "D1") (str "D1") true
          (str "again") (str "/work").

(** A handler of [index.js] for the message [9.5], and a reply in the
    thread of that message. *)
Definition sample_thread_inflight : IndexJs.inflight :=
  IndexJs.Inflight
    (IndexJs.Waiting (Some (str "9.5")) (str "D1") (Some (str "9.5"))
       (str "hello"))
    (str "9.6") throttle_init 0 0%nat.

Definition sample_thread_reply : message :=
  Message (Some (str "im")) (Some (str "U1")) None (Some (str "more"))
          (str "D1") (Some (str "10.5")) (Some (str "9.5")).

(** ** Notions and sample values for the handler on the event loop *)



(** The names of the reactions added, in order. *)
Definition reactions (log : list chat_call) : list jsstring :=
  omap (λ c, match c with ReactionAdd _ _ name => Some name | _ => None end)
       log.

(** ['exit ' + code] *)
Definition exit_message (code : option Z) : jsstring :=
  str "exit " ++ match code with
                 | Some c => str (pretty c)
                 | None => str "null"
                 end.

(** A call of [resolve], if [a] is one, reports the duration [d]. *)
Definition reports (d : Z) (a : action) : Prop :=
  match a with
  | Resolve o => durationMs o = d
  | _ => True
  end.

(** The reactions a handler that awaits [a] can still add. *)
Definition reactions_left (a : option awaiting) : nat :=
  match a with
  | Some LastReaction | None => 0
  | _ => 1
  end.

(** [{"type":"result","subtype":"success","result":"done"}] *)
Definition result_done_line : jsstring :=
  str "{" ++ quoted "type" ++ str ":" ++ quoted "result" ++ str ","
  ++ quoted "subtype" ++ str ":" ++ quoted "success" ++ str ","
  ++ quoted "result" ++ str ":" ++ quoted "done" ++ str "}".

Definition result_done : json :=
  JObj [(str "type", JStr (str "result"));
        (str "subtype", JStr (str "success"));
        (str "result", JStr (str "done"))].

(** A [JSON.parse] that knows these two lines and rejects every other. *)
Definition parse_sample (line : jsstring) : option json :=
  if decide (line = assistant_hi_line) then Some assistant_hi
  else if decide (line = result_done_line) then Some result_done
  else None.



(** * Properties *)

(** ** Strings *)

Lemma js_length_app (a b : jsstring) :
  js_length (a ++ b) = js_length a + js_length b.
Proof. unfold js_length. rewrite length_app. lia. Qed.

Lemma js_slice_from_neg (s : jsstring) (n : Z) :
  0 < n <= js_length s ->
  js_slice_from s (- n) = drop (length s - Z.to_nat n) s.
Proof.
  unfold js_slice_from, js_length. intros [Hn Hlen].
  destruct (Z.ltb_spec (- n) 0) as [_|]; [|lia].
  f_equal. lia.
Qed.

(** ** [trim] *)

Lemma trim_short (t : jsstring) :
  (length t <= 3800)%nat -> trim t None = t.
Proof.
  intros H. unfold trim, js_length.
  destruct (Z.leb_spec (Z.of_nat (length t)) 3800); [done | lia].
Qed.

Lemma trim_long (t : jsstring) :
  (3800 < length t)%nat ->
  trim t None = str "..." ++ drop (length t - 3797) t.
Proof.
  intros H. unfold trim, js_length.
  destruct (Z.leb_spec (Z.of_nat (length t)) 3800); [lia |].
  f_equal. rewrite (js_slice_from_neg t (3800 - 3)); [done |].
  unfold js_length; lia.
Qed.

Lemma trim_length (t : jsstring) : (length (trim t None) <= 3800)%nat.
Proof.
  destruct (decide (length t <= 3800)%nat) as [H|H].
  - by rewrite trim_short.
  - rewrite trim_long by lia. rewrite length_app, length_drop. simpl. lia.
Qed.

(** ** The throttler *)

Lemma liveUpdate_lastText now t st :
  lastText (liveUpdate now t st).1 = trim t None.
Proof.
  unfold liveUpdate. case_decide as Heq; [by rewrite Heq |].
  by destruct (now - lastAt st <? 600).
Qed.

(** What one call does, as a rule on the closure's two variables. *)
Lemma liveUpdate_forwards now t st :
  (liveUpdate now t st).2 =
  if bool_decide (trim t None ≠ lastText st ∧ 600 <= now - lastAt st)
  then Some (trim t None) else None.
Proof.
  unfold liveUpdate. case_decide as Heq.
  - rewrite bool_decide_eq_false_2; [done | tauto].
  - destruct (Z.ltb_spec (now - lastAt st) 600).
    + rewrite bool_decide_eq_false_2; [done | lia].
    + by rewrite bool_decide_eq_true_2.
Qed.

Lemma liveUpdate_lastAt now t st :
  lastAt (liveUpdate now t st).1 =
  match (liveUpdate now t st).2 with Some _ => now | None => lastAt st end.
Proof.
  unfold liveUpdate. case_decide; [done |].
  by destruct (now - lastAt st <? 600).
Qed.

Lemma liveUpdates_app a b st :
  liveUpdates (a ++ b) st =
  let '(st1, o1) := liveUpdates a st in
  let '(st2, o2) := liveUpdates b st1 in
  (st2, o1 ++ o2).
Proof.
  revert st. induction a as [|[now t] a IH]; intros st; simpl.
  - by destruct (liveUpdates b st).
  - destruct (liveUpdate now t st) as [st1 o]. rewrite IH.
    destruct (liveUpdates a st1) as [st2 o2].
    destruct (liveUpdates b st2) as [st3 o3].
    by rewrite app_assoc.
Qed.

Lemma liveUpdates_snoc calls now t st :
  liveUpdates (calls ++ [(now, t)]) st =
  let '(st1, out) := liveUpdates calls st in
  ((liveUpdate now t st1).1,
   out ++ from_option (λ x, [(now, x)]) [] (liveUpdate now t st1).2).
Proof.
  rewrite liveUpdates_app. destruct (liveUpdates calls st) as [st1 out].
  simpl. destruct (liveUpdate now t st1) as [st2 o]. simpl.
  by rewrite app_nil_r.
Qed.

(** [lastText] is the truncation of the snapshot of the latest call,
    forwarded or not; [lastAt] is the clock value of the latest forward. *)
Lemma liveUpdates_state calls st :
  let '(st', out) := liveUpdates calls st in
  lastText st' = from_option (λ c, trim c.2 None) (lastText st) (last calls)
  ∧ lastAt st' = from_option fst (lastAt st) (last out).
Proof.
  induction calls as [|[now t] calls IH] using rev_ind; [done |].
  rewrite liveUpdates_snoc. destruct (liveUpdates calls st) as [st1 out].
  destruct IH as [_ IHat]. rewrite last_snoc. simpl. split.
  - apply liveUpdate_lastText.
  - rewrite liveUpdate_lastAt.
    destruct (liveUpdate now t st1).2; simpl.
    + by rewrite last_snoc.
    + by rewrite app_nil_r.
Qed.

Lemma liveUpdate_length now t st u :
  (liveUpdate now t st).2 = Some u -> (length u <= 3800)%nat.
Proof.
  rewrite liveUpdate_forwards. case_bool_decide; [|done].
  intros [= <-]. apply trim_length.
Qed.

Lemma liveUpdates_length calls st :
  Forall (λ u, (length u.2 <= 3800)%nat) (liveUpdates calls st).2.
Proof.
  revert st. induction calls as [|[now t] calls IH]; intros st; simpl.
  - constructor.
  - destruct (liveUpdate now t st) as [st1 o] eqn:E.
    specialize (IH st1). destruct (liveUpdates calls st1) as [st2 out].
    simpl in *. apply Forall_app. split; [|done].
    destruct o as [u|]; simpl; [|constructor].
    constructor; [|constructor]. simpl.
    eapply (liveUpdate_length now t st). by rewrite E.
Qed.

(** C10. With the default budget, [trim] returns a text of at most 3800
    code units unchanged, and turns a longer one into exactly 3800 code
    units: the marker ['...'] followed by its last 3797 code units. Hence
    every text that [liveUpdate] forwards has at most 3800 code units. *)
Theorem trim_display_bound (t : jsstring) :
  ((length t <= 3800)%nat -> trim t None = t)
  ∧ ((3800 < length t)%nat ->
     trim t None = str "..." ++ drop (length t - 3797) t
     ∧ length (drop (length t - 3797) t) = 3797%nat
     ∧ length (trim t None) = 3800%nat)
  ∧ (∀ calls st,
       Forall (λ u, (length u.2 <= 3800)%nat) (liveUpdates calls st).2).
Proof.
  split; [apply trim_short |]. split; [| apply liveUpdates_length].
  intros H. rewrite trim_long by done.
  rewrite length_app, length_drop. simpl. split; [done | lia].
Qed.

Lemma trim_display_bound_witness :
  trim (str "hello") None = str "hello"
  ∧ length (trim (replicate 3801 97%N) None) = 3800%nat.
Proof.
  split.
  - apply (proj1 (trim_display_bound (str "hello"))). simpl. lia.
  - apply (proj1 (proj2 (trim_display_bound (replicate 3801 97%N)))).
    rewrite length_replicate. lia.
Defined.

(** C3, as stated, fails: after ["a"] was forwarded at 1000 and ["ab"] was
    suppressed at 1100, the snapshot ["a"] at 2000 equals the value last
    forwarded and is forwarded again, and the snapshot ["ab"] at 2000
    differs from it, arrives after the interval, and is suppressed. The
    first also happens to snapshots of one growing accumulator: once the
    text is longer than the budget, the truncation of a later snapshot can
    equal the truncation that was forwarded last. *)
Lemma liveUpdate_compares_with_last_seen :
  (liveUpdates [(1000, str "a"); (1100, str "ab")] throttle_init).2
    = [(1000, str "a")]
  ∧ ¬ forwards_iff_new_and_due
        [(1000, str "a"); (1100, str "ab")] 2000 (str "a")
  ∧ ¬ forwards_iff_new_and_due
        [(1000, str "a"); (1100, str "ab")] 2000 (str "ab")
  ∧ (liveUpdates grown_calls throttle_init).2 = [(1000, trim abab None)]
  ∧ trim (abab ++ str "ab") None = trim abab None
  ∧ ¬ forwards_iff_new_and_due grown_calls 2000 (abab ++ str "ab").
Proof.
  split; [reflexivity |]. split; [|split].
  - intros H. cbv in H. destruct H as [H _].
    destruct H as [H _]; [by eexists | by apply H].
  - intros H. cbv in H. destruct H as [_ H].
    destruct H as [x Hx]; [split; [discriminate | discriminate] |].
    discriminate Hx.
  - assert (Hlog : liveUpdates grown_calls throttle_init
                   = (Throttle (trim (abab ++ str "a") None) 1000,
                      [(1000, trim abab None)])) by (vm_compute; reflexivity).
    assert (Hsame : trim (abab ++ str "ab") None = trim abab None)
      by (vm_compute; reflexivity).
    split; [by rewrite Hlog |]. split; [exact Hsame |].
    unfold forwards_iff_new_and_due. rewrite Hlog.
    intros [Hfw _]. destruct Hfw as [Hne _].
    + rewrite liveUpdate_forwards, bool_decide_eq_true_2; [by eexists |].
      split; [| cbn [lastAt]; lia]. cbn [lastText]. rewrite Hsame.
      vm_compute. discriminate.
    + by apply Hne.
Qed.

(** C3, amended. A snapshot is forwarded iff its truncation differs from
    the truncation of the snapshot of the preceding [liveUpdate] call,
    forwarded or not (from [''] at the first call), and at least 600ms have
    passed since the last forward (since clock value 0 before the first). *)
Theorem liveUpdate_rule (calls : list (Z * jsstring)) (now : Z)
    (t : jsstring) :
  (liveUpdates (calls ++ [(now, t)]) throttle_init).2 =
  (liveUpdates calls throttle_init).2 ++
  if bool_decide
       (trim t None ≠ from_option (λ c, trim c.2 None) [] (last calls)
        ∧ 600 <= now - last_forward_at (liveUpdates calls throttle_init).2)
  then [(now, trim t None)] else [].
Proof.
  rewrite liveUpdates_snoc.
  pose proof (liveUpdates_state calls throttle_init) as Hst.
  destruct (liveUpdates calls throttle_init) as [st out].
  destruct Hst as [Htext Hat]. simpl in *.
  rewrite liveUpdate_forwards, Htext, Hat. unfold last_forward_at.
  by case_bool_decide.
Qed.

(** ** The final update *)

Lemma updates_app a b : updates (a ++ b) = updates a ++ updates b.
Proof. apply omap_app. Qed.

(** The calls of [liveUpdate] made through [onChunk] are what reaches the
    chat surface while the invocation runs. *)
Lemma handleMessage_chunks_updates calls f :
  updates (handleMessage_chunks calls f).2
  = snd <$> (liveUpdates calls (f_throttle f)).2.
Proof.
  revert f. induction calls as [|[now t] calls IH]; intros f; [done |].
  simpl. unfold handleMessage_chunk.
  destruct (liveUpdate now t (f_throttle f)) as [th o].
  match goal with |- context [handleMessage_chunks calls ?g] =>
    specialize (IH g); destruct (handleMessage_chunks calls g) as [f2 out2]
  end.
  simpl in IH. destruct (liveUpdates calls th) as [th2 out].
  simpl in *. rewrite updates_app, IH, fmap_app. by destruct o.
Qed.



Lemma handleMessage_chunks_frame calls f :
  f_wait (handleMessage_chunks calls f).1 = f_wait f
  ∧ f_posted (handleMessage_chunks calls f).1 = f_posted f
  ∧ f_t0 (handleMessage_chunks calls f).1 = f_t0 f
  ∧ f_history (handleMessage_chunks calls f).1 = f_history f
  ∧ Forall (own_call f) (handleMessage_chunks calls f).2.
Proof.
  revert f. induction calls as [|[now t] calls IH]; intros f;
    [by repeat split |].
  cbn [handleMessage_chunks]. unfold handleMessage_chunk.
  destruct (liveUpdate now t (f_throttle f)) as [th o].
  set (f1 := Inflight (f_wait f) (f_posted f) th (f_t0 f) (f_history f)).
  specialize (IH f1). destruct (handleMessage_chunks calls f1) as [f2 out2].
  cbn [fst snd] in *. destruct IH as (-> & -> & -> & -> & IH).
  repeat split. apply Forall_app. split; [|done].
  destruct o; repeat constructor.
Qed.

Section EventLoop.
Variable JSON_parse : jsstring -> option json.
Variable fmtMs : Z -> jsstring.
Variable toFixed4 : float -> jsstring.
Variable ToString : json -> jsstring.
Variable StringToNumber : jsstring -> float.
Variable TypeError_message : throw_site -> jsstring.
Variable clock : nat -> Z.

#[local] Abbreviation hrun :=
  (handler_run JSON_parse fmtMs toFixed4 ToString StringToNumber
     TypeError_message clock).
#[local] Abbreviation hstep :=
  (handle JSON_parse fmtMs toFixed4 ToString StringToNumber
     TypeError_message clock).


#[local] Abbreviation hinvoked :=
  (handle_invoked fmtMs toFixed4 ToString StringToNumber TypeError_message
     clock).




End EventLoop.


(** ** The line framer *)

Lemma split_nl_nonempty s : split_nl s ≠ [].
Proof.
  destruct s as [|c r]; simpl; [done |].
  destruct (c =? 10)%N; [done |]. by destruct (split_nl r).
Qed.

Lemma split_nl_cons c r :
  split_nl (c :: r) =
  if (c =? 10)%N then [] :: split_nl r
  else (c :: default [] (head (split_nl r))) :: tail (split_nl r).
Proof.
  simpl. destruct (c =? 10)%N; [done |].
  pose proof (split_nl_nonempty r). by destruct (split_nl r).
Qed.

(** Splitting a concatenation: the last piece of the first part is glued
    to the first piece of the second. *)
Lemma split_nl_app a b :
  split_nl (a ++ b) =
  removelast (split_nl a)
  ++ (default [] (last (split_nl a)) ++ default [] (head (split_nl b)))
     :: tail (split_nl b).
Proof.
  induction a as [|c a IH].
  - simpl. pose proof (split_nl_nonempty b). by destruct (split_nl b).
  - rewrite <- app_comm_cons, !split_nl_cons, IH.
    pose proof (split_nl_nonempty a) as Ha.
    destruct (c =? 10)%N.
    + simpl. by destruct (split_nl a).
    + destruct (split_nl a) as [|l [|l' ls]]; [done | done |].
      simpl. done.
Qed.

Lemma feed_text_lines d b :
  feed_text d b
  = (removelast (split_nl (b ++ d)), default [] (last (split_nl (b ++ d)))).
Proof. reflexivity. Qed.

Lemma removelast_last_default (l : list jsstring) :
  l ≠ [] -> removelast l ++ [default [] (last l)] = l.
Proof.
  induction l as [|x [|y l] IH]; intros H; [done | done |].
  change (x :: removelast (y :: l) ++ [default [] (last (y :: l))]
          = x :: y :: l).
  f_equal. by apply IH.
Qed.

(** The carry-over never holds a line feed, so it is one piece. *)
Lemma split_nl_carry s :
  split_nl (default [] (last (split_nl s))) = [default [] (last (split_nl s))].
Proof.
  induction s as [|c r IH]; [done |].
  rewrite split_nl_cons. pose proof (split_nl_nonempty r) as Hr.
  destruct (c =? 10)%N eqn:Ec.
  - destruct (split_nl r) as [|l ls] eqn:E; [done |]. exact IH.
  - destruct (split_nl r) as [|l [|l' ls]] eqn:E; [done | |].
    + simpl in *. by rewrite Ec, IH.
    + exact IH.
Qed.

(** Feeding [a] and then [b] as decoded text is feeding [a ++ b]. *)
Lemma feed_text_app a b buf :
  feed_text (a ++ b) buf =
  ((feed_text a buf).1 ++ (feed_text b (feed_text a buf).2).1,
   (feed_text b (feed_text a buf).2).2).
Proof.
  rewrite !feed_text_lines. cbn [fst snd].
  rewrite app_assoc, (split_nl_app (buf ++ a) b).
  set (c := default [] (last (split_nl (buf ++ a)))).
  assert (Hc : split_nl c = [c]) by apply split_nl_carry.
  rewrite (split_nl_app c b), Hc.
  change (removelast [c]) with (@nil jsstring).
  change (default [] (last [c])) with c. rewrite app_nil_l.
  by rewrite List.removelast_app, last_app_cons.
Qed.

Lemma feed_text_nil buf :
  split_nl buf = [buf] -> feed_text [] buf = ([], buf).
Proof. intros H. rewrite feed_text_lines, app_nil_r, H. done. Qed.

Lemma feed_text_carry d buf :
  split_nl (feed_text d buf).2 = [(feed_text d buf).2].
Proof. rewrite feed_text_lines. apply split_nl_carry. Qed.

Lemma feed_texts_concat chunks buf :
  split_nl buf = [buf] ->
  feed_texts chunks buf = feed_text (concat chunks) buf.
Proof.
  revert buf. induction chunks as [|d chunks IH]; intros buf Hbuf.
  - simpl. by rewrite feed_text_nil.
  - cbn [feed_texts concat]. rewrite feed_text_app.
    pose proof (feed_text_carry d buf) as Hc.
    destruct (feed_text d buf) as [l1 b1]. cbn [fst snd] in *.
    rewrite (IH b1 Hc). by destruct (feed_text (concat chunks) b1).
Qed.

(** X5. On text that is already decoded the framer does not depend on
    the chunk boundaries: cut into chunks in any way, a text yields the
    lines and leaves the carry-over of the whole text. *)
Theorem framing_of_decoded_text (chunks : list jsstring) :
  feed_texts chunks [] = feed_text (concat chunks) []
  ∧ (feed_text (concat chunks) []).1
    = removelast (split_nl (concat chunks))
  ∧ (feed_text (concat chunks) []).2
    = default [] (last (split_nl (concat chunks))).
Proof.
  split; [by apply feed_texts_concat | by rewrite feed_text_lines].
Qed.

Lemma feed_all_texts chunks buf :
  feed_all chunks buf = feed_texts (Buffer_toString <$> chunks) buf.
Proof.
  revert buf. induction chunks as [|d chunks IH]; intros buf; [done |].
  cbn [feed_all feed_texts fmap list_fmap]. unfold feed.
  destruct (feed_text (Buffer_toString d) buf) as [l1 b1].
  by rewrite IH.
Qed.

(** On bytes below 128 the decoder is the identity, byte for byte. *)
Lemma utf8_decode_ascii bs :
  Forall (λ b, (b < 128)%N) bs -> utf8_decode bs = bs.
Proof.
  induction 1 as [|b bs Hb _ IH]; [done |].
  simpl. destruct (N.ltb_spec b 128); [by rewrite IH | lia].
Qed.

Lemma Buffer_toString_ascii d :
  ascii_only d -> Buffer_toString d = Byte.to_N <$> d.
Proof.
  intros H. apply utf8_decode_ascii. by apply Forall_fmap.
Qed.

(** X1. Framing of an ASCII stream does not depend on the chunk
    boundaries: fed in any chunks, it yields the lines and leaves the
    carry-over that it yields and leaves when fed whole. *)
Lemma feed_all_ascii chunks :
  Forall ascii_only chunks ->
  feed_all chunks [] = feed (concat chunks) [].
Proof.
  intros H. rewrite feed_all_texts, feed_texts_concat by done.
  unfold feed. f_equal.
  rewrite Buffer_toString_ascii by by apply Forall_concat.
  induction H as [|d chunks Hd _ IH]; [done |].
  rewrite fmap_cons. cbn [concat].
  by rewrite fmap_app, IH, Buffer_toString_ascii.
Qed.

Lemma feed_all_ascii_witness :
  feed_all [[Byte.x61; Byte.x62]; [Byte.x63; Byte.x0a; Byte.x64]] []
  = feed [Byte.x61; Byte.x62; Byte.x63; Byte.x0a; Byte.x64] [].
Proof.
  apply (feed_all_ascii [[Byte.x61; Byte.x62]; [Byte.x63; Byte.x0a; Byte.x64]]).
  repeat constructor; simpl; lia.
Defined.

(** C5 fails on the code when a chunk boundary falls inside a multi-byte
    character: each chunk is decoded on its own. The three bytes of
    [U+00E9 '\n'] fed whole yield the line [U+00E9]; cut after the first
    byte they yield the line [U+FFFD U+FFFD]. *)
Lemma feed_cut_inside_character :
  feed_all [[Byte.xc3; Byte.xa9; Byte.x0a]] [] = ([[233%N]], [])
  ∧ feed_all [[Byte.xc3]; [Byte.xa9; Byte.x0a]] []
    = ([[65533%N; 65533%N]], []).
Proof. split; reflexivity. Qed.

(** ** The accumulator *)

Lemma chain_from_growing a l : chain_from a l -> growing l.
Proof.
  revert a. induction l as [|s r IH]; intros a H i x y Hx Hy; [done |].
  destruct H as [_ H]. destruct i as [|i].
  - destruct r as [|s' r]; [done |]. simpl in *.
    injection Hx as <-. injection Hy as <-. destruct H as [H _].
    split; [done | exact (prefix_length _ _ H)].
  - by apply (IH s H i).
Qed.

Lemma grows_to_nil a : grows_to a [] a.
Proof. by split. Qed.

Lemma grows_to_cons a s l a' :
  a `prefix_of` s -> grows_to s l a' -> grows_to a (s :: l) a'.
Proof.
  intros Ha [Hc Hl]. split; [by split |].
  destruct l as [|s' l]; [done |]. rewrite last_cons_cons.
  destruct (last (s' :: l)) eqn:E; [done | by apply last_None in E].
Qed.

Lemma grows_to_app a l1 a1 l2 a2 :
  grows_to a l1 a1 -> grows_to a1 l2 a2 -> grows_to a (l1 ++ l2) a2.
Proof.
  revert a. induction l1 as [|s l1 IH]; intros a [Hc Hl] H2.
  - simpl in *. destruct H2 as [Hc2 Hl2]. split.
    + destruct l2 as [|s2 l2]; [done |]. destruct Hc2 as [Hp Hc2].
      split; [by etrans | done].
    + destruct (last l2) eqn:E; [done | simpl in *; by etrans].
  - destruct Hc as [Hp Hc]. simpl. apply grows_to_cons; [done |].
    apply IH; [|done]. split; [done |].
    destruct l1 as [|s' l1]; [done |]. rewrite last_cons_cons in Hl.
    destruct (last (s' :: l1)) eqn:E; [done | by apply last_None in E].
Qed.

Section Accumulator.
Variable JSON_parse : jsstring -> option json.
Variable ToString : json -> jsstring.

Lemma blocks_loop_grows bs a :
  let '(a', out, _) := blocks_loop ToString bs a in
  grows_to a (snapshots out) a'.
Proof.
  revert a. induction bs as [|b bs IH]; intros a; [apply grows_to_nil |].
  assert (Hstep :
    let '(a', out, _) :=
      (if is_str "text" (get "type" b) && truthy (get "text" b)
       then let acc' := a ++ from_option (to_string ToString) []
                                         (get "text" b) in
            let '(a2, out, threw) := blocks_loop ToString bs acc' in
            (a2, OnChunk acc' :: out, threw)
       else blocks_loop ToString bs a) in
    grows_to a (snapshots out) a').
  { destruct (is_str "text" (get "type" b) && truthy (get "text" b)).
    - cbn zeta.
      set (acc' := a ++ from_option (to_string ToString) [] (get "text" b)).
      specialize (IH acc').
      destruct (blocks_loop ToString bs acc') as [[a2 out] threw].
      change (snapshots (OnChunk acc' :: out))
        with (acc' :: snapshots out).
      apply grows_to_cons; [by apply prefix_app_r | done].
    - apply IH. }
  destruct b; try exact Hstep. apply grows_to_nil.
Qed.

Lemma snapshots_app a b : snapshots (a ++ b) = snapshots a ++ snapshots b.
Proof. apply omap_app. Qed.

Lemma result_actions_snapshots now st ev :
  snapshots (result_actions ToString now st ev) = [].
Proof.
  unfold result_actions.
  destruct (is_str "result" (get "type" ev) &&
            is_str "success" (get "subtype" ev));
    by destruct (is_str "result" (get "type" ev) &&
                 truthy (get "is_error" ev)).
Qed.

Lemma on_event_grows now ev st :
  grows_to (acc st) (snapshots (on_event ToString now ev st).2)
           (acc (on_event ToString now ev st).1).
Proof.
  assert (Hmain :
    grows_to (acc st)
      (snapshots
         (if is_str "assistant" (get "type" ev) then
            match content_blocks ev with
            | None => (st, [])
            | Some bs =>
              let '(a, out, threw) := blocks_loop ToString bs (acc st) in
              let st' := ProcState (buf st) a (t0 st) (timer_armed st) in
              if threw then (st', out)
              else (st', out ++ result_actions ToString now st' ev)
            end
          else (st, result_actions ToString now st ev)).2)
      (acc (if is_str "assistant" (get "type" ev) then
            match content_blocks ev with
            | None => (st, [])
            | Some bs =>
              let '(a, out, threw) := blocks_loop ToString bs (acc st) in
              let st' := ProcState (buf st) a (t0 st) (timer_armed st) in
              if threw then (st', out)
              else (st', out ++ result_actions ToString now st' ev)
            end
          else (st, result_actions ToString now st ev)).1)).
  { destruct (is_str "assistant" (get "type" ev)).
    - destruct (content_blocks ev) as [bs|]; [|apply grows_to_nil].
      pose proof (blocks_loop_grows bs (acc st)) as H.
      destruct (blocks_loop ToString bs (acc st)) as [[a out] threw].
      destruct threw; simpl; [done |].
      by rewrite snapshots_app, result_actions_snapshots, app_nil_r.
    - simpl. rewrite result_actions_snapshots. apply grows_to_nil. }
  destruct ev; exact Hmain.
Qed.

Lemma on_line_grows now line st :
  grows_to (acc st)
    (snapshots (on_line JSON_parse ToString now line st).2)
    (acc (on_line JSON_parse ToString now line st).1).
Proof.
  unfold on_line. case_bool_decide; [apply grows_to_nil |].
  destruct (JSON_parse line) as [ev|]; [|apply grows_to_nil].
  apply on_event_grows.
Qed.

Lemma on_lines_grows now lines st :
  grows_to (acc st)
    (snapshots (on_lines JSON_parse ToString now lines st).2)
    (acc (on_lines JSON_parse ToString now lines st).1).
Proof.
  revert st. induction lines as [|line lines IH]; intros st;
    [apply grows_to_nil |].
  cbn [on_lines]. pose proof (on_line_grows now line st) as H1.
  destruct (on_line JSON_parse ToString now line st) as [st1 out1].
  specialize (IH st1).
  destruct (on_lines JSON_parse ToString now lines st1) as [st2 out2].
  cbn [fst snd] in *. rewrite snapshots_app. by eapply grows_to_app.
Qed.

Lemma step_grows e st :
  grows_to (acc st)
    (snapshots (step JSON_parse ToString e st).2)
    (acc (step JSON_parse ToString e st).1).
Proof.
  destruct e as [now d|d| |code|m]; cbn [step].
  - unfold on_stdout. destruct (feed d (buf st)) as [lines carry].
    apply (on_lines_grows now lines
             (ProcState carry (acc st) (t0 st) (timer_armed st))).
  - cbn [fst snd]. case_bool_decide; apply grows_to_nil.
  - destruct (timer_armed st); apply grows_to_nil.
  - cbn [fst snd acc].
    destruct (bool_decide (code ≠ Some 0) && bool_decide (acc st = []));
      apply grows_to_nil.
  - apply grows_to_nil.
Qed.

Lemma run_grows evs st :
  grows_to (acc st)
    (snapshots (run JSON_parse ToString evs st).2)
    (acc (run JSON_parse ToString evs st).1).
Proof.
  revert st. induction evs as [|e evs IH]; intros st;
    [apply grows_to_nil |].
  cbn [run]. pose proof (step_grows e st) as H1.
  destruct (step JSON_parse ToString e st) as [st1 out1].
  specialize (IH st1).
  destruct (run JSON_parse ToString evs st1) as [st2 out2].
  cbn [fst snd] in *. rewrite snapshots_app. by eapply grows_to_app.
Qed.

Lemma askSDK_stream_grows deltas a :
  grows_to a (askSDK_stream deltas a).2 (askSDK_stream deltas a).1.
Proof.
  revert a. induction deltas as [|t deltas IH]; intros a;
    [apply grows_to_nil |].
  cbn [askSDK_stream]. specialize (IH (a ++ t)).
  destruct (askSDK_stream deltas (a ++ t)) as [a' out].
  cbn [fst snd] in *. apply grows_to_cons; [by apply prefix_app_r | done].
Qed.

(** C6. On both paths, each snapshot passed to [onChunk] has the snapshot
    passed before it as a prefix and is at least as long: for the events
    of a worker whatever they are, and for the text deltas of a stream. *)
Theorem snapshots_grow (evs : list proc_event) (now : Z)
    (deltas : list jsstring) :
  growing (snapshots (run JSON_parse ToString evs (askClaude_init now)).2)
  ∧ growing (askSDK_stream deltas []).2.
Proof.
  split.
  - eapply chain_from_growing, (run_grows evs (askClaude_init now)).
  - eapply chain_from_growing, (askSDK_stream_grows deltas []).
Qed.
End Accumulator.

(** ** The promise of [askClaude] *)

Lemma settle_settled s a : settle (Some s) a = Some s.
Proof. done. Qed.

Lemma foldl_settle_settled s log : foldl settle (Some s) log = Some s.
Proof. induction log as [|a log IH]; [done | exact IH]. Qed.

Lemma settlements_settled s log : settlements (Some s) log = 0%nat.
Proof. induction log as [|a log IH]; [done | exact IH]. Qed.

(** A promise settles at most once, whatever calls are made on it. *)
Lemma settlements_at_most_once log : (settlements None log <= 1)%nat.
Proof.
  induction log as [|a log IH]; simpl; [lia |].
  destruct a; simpl; try exact IH; rewrite settlements_settled; lia.
Qed.

(** It settles exactly when some call is a [resolve] or a [reject]. *)
Lemma settlements_once_iff log :
  settlements None log = 1%nat ↔ is_Some (promise log).
Proof.
  unfold promise. induction log as [|a log IH]; simpl.
  - split; [done | by intros [? ?]].
  - destruct a; simpl; try exact IH;
      rewrite settlements_settled, foldl_settle_settled;
      split; eauto.
Qed.

(** Once settled, the promise keeps its outcome: the first call wins. *)
Lemma promise_first_wins log1 log2 :
  is_Some (promise log1) -> promise (log1 ++ log2) = promise log1.
Proof.
  unfold promise. rewrite foldl_app. intros [s ->].
  apply foldl_settle_settled.
Qed.

Lemma promise_pending_app log1 log2 :
  promise log1 = None -> promise (log1 ++ log2) = promise log2.
Proof. unfold promise. rewrite foldl_app. by intros ->. Qed.

Section Exit.
Variable JSON_parse : jsstring -> option json.
Variable ToString : json -> jsstring.

(** What the ['close'] handler does: it clears the timer, and rejects
    only when the code is not [0] and nothing was accumulated. *)
Lemma close_step code st :
  step JSON_parse ToString (Close code) st =
  (ProcState (buf st) (acc st) (t0 st) false,
   if bool_decide (code ≠ Some 0) && bool_decide (acc st = [])
   then [Reject (str "exit " ++ match code with
                                | Some c => str (pretty c)
                                | None => str "null"
                                end)]
   else []).
Proof. reflexivity. Qed.

(** With accumulated text, or with exit code [0], ['close'] settles
    nothing and leaves no timer behind that could. *)
Lemma close_settles_nothing code st :
  acc st ≠ [] ∨ code = Some 0 ->
  (step JSON_parse ToString (Close code) st).2 = []
  ∧ (step JSON_parse ToString TimerFired
       (step JSON_parse ToString (Close code) st).1).2 = [].
Proof.
  intros H. rewrite close_step. cbn [fst snd]. split; [|done].
  destruct H as [H| ->].
  - rewrite (bool_decide_eq_false_2 (acc st = [])) by done.
    by rewrite andb_false_r.
  - by rewrite bool_decide_eq_false_2 by (intros H; by apply H).
Qed.

Lemma run_hi_chunk now st :
  JSON_parse assistant_hi_line = Some assistant_hi ->
  buf st = [] ->
  step JSON_parse ToString
    (StdoutData now (bytes_of (assistant_hi_line ++ [10%N]))) st
  = (ProcState [] (acc st ++ str "hi") (t0 st) (timer_armed st),
     [OnChunk (acc st ++ str "hi")]).
Proof.
  intros Hparse Hbuf. cbn [step]. unfold on_stdout. rewrite Hbuf.
  change (feed (bytes_of (assistant_hi_line ++ [10%N])) [])
    with ([assistant_hi_line], @nil N).
  cbn [on_lines]. unfold on_line.
  change (bool_decide (js_trim assistant_hi_line = [])) with false.
  cbn iota. rewrite Hparse. reflexivity.
Qed.

(** C1 on the code. The worker prints one assistant line with the text
    ["hi"] and exits with status 7, without a result event: [onChunk] has
    received ["hi"], the accumulated text is ["hi"], and the promise is
    still pending, with the timer cleared; it is not resolved with the
    accumulated text. With nothing accumulated, exit status 7 rejects
    with the message ["exit 7"]. *)
Theorem exit_with_text_leaves_promise_pending (now : Z) :
  JSON_parse assistant_hi_line = Some assistant_hi ->
  let r := run JSON_parse ToString
             [StdoutData now (bytes_of (assistant_hi_line ++ [10%N]));
              Close (Some 7)]
             (askClaude_init 0) in
  acc r.1 = str "hi"
  ∧ snapshots r.2 = [str "hi"]
  ∧ promise r.2 = None
  ∧ timer_armed r.1 = false
  ∧ promise (run JSON_parse ToString [Close (Some 7)] (askClaude_init 0)).2
    = Some (Rejected (str "exit 7")).
Proof.
  intros Hparse. cbn zeta. cbn [run].
  rewrite run_hi_chunk by done. rewrite close_step. done.
Qed.

(** C2 on the code. For the same worker, the events process exit and
    timer (which ['close'] has cleared, so its callback does nothing)
    settle the promise zero times; so does an exit with status 0 that no
    result event preceded. *)
Theorem exit_without_result_settles_nothing (now : Z) :
  JSON_parse assistant_hi_line = Some assistant_hi ->
  settlements None
    (run JSON_parse ToString
       [StdoutData now (bytes_of (assistant_hi_line ++ [10%N]));
        Close (Some 7); TimerFired]
       (askClaude_init 0)).2 = 0%nat
  ∧ settlements None
      (run JSON_parse ToString [Close (Some 0); TimerFired]
         (askClaude_init 0)).2 = 0%nat.
Proof.
  intros Hparse. cbn [run].
  rewrite run_hi_chunk by done. rewrite !close_step. done.
Qed.
End Exit.

Section Settlement.
Variable JSON_parse : jsstring -> option json.
Variable ToString : json -> jsstring.

Lemma run_app evs1 evs2 st :
  run JSON_parse ToString (evs1 ++ evs2) st =
  ((run JSON_parse ToString evs2 (run JSON_parse ToString evs1 st).1).1,
   (run JSON_parse ToString evs1 st).2
   ++ (run JSON_parse ToString evs2 (run JSON_parse ToString evs1 st).1).2).
Proof.
  revert st. induction evs1 as [|e evs1 IH]; intros st.
  - cbn [app run fst snd]. by destruct (run JSON_parse ToString evs2 st).
  - cbn [app run]. destruct (step JSON_parse ToString e st) as [st1 out1].
    rewrite IH. destruct (run JSON_parse ToString evs1 st1) as [st2 out2].
    cbn [fst snd]. by rewrite app_assoc.
Qed.

(** X4. A result event with subtype ['success'] resolves a pending promise
    with the event's [result] when that is truthy and with the accumulated
    text otherwise, the time since the start, and the event's cost. *)
Theorem result_success_resolves (now : Z) (ev : json) (st : proc_state) :
  is_str "result" (get "type" ev) = true ->
  is_str "success" (get "subtype" ev) = true ->
  (on_event ToString now ev st).1 = st
  ∧ promise (on_event ToString now ev st).2
    = Some (Fulfilled
              (Outcome (if truthy (get "result" ev)
                        then default JNull (get "result" ev)
                        else JStr (acc st))
                       (now - t0 st)
                       (get "total_cost_usd" ev))).
Proof.
  intros Htype Hsub.
  assert (Hnot : is_str "assistant" (get "type" ev) = false).
  { unfold is_str in *. destruct (get "type" ev) as [[]|]; try done.
    apply bool_decide_eq_true in Htype. subst s.
    by apply bool_decide_eq_false. }
  destruct ev; try discriminate Htype.
  unfold on_event. rewrite Hnot. unfold result_actions.
  rewrite Htype, Hsub. cbn [andb fst snd].
  by destruct (truthy (get "is_error" (JObj props))).
Qed.
End Settlement.

Lemma result_success_resolves_witness :
  promise (on_event (λ _, []) 7
             (JObj [(str "type", JStr (str "result"));
                    (str "subtype", JStr (str "success"))])
             (ProcState [] (str "hi") 2 true)).2
  = Some (Fulfilled (Outcome (JStr (str "hi")) 5 None)).
Proof.
  exact (proj2 (result_success_resolves (λ _, []) 7
                  (JObj [(str "type", JStr (str "result"));
                         (str "subtype", JStr (str "success"))])
                  (ProcState [] (str "hi") 2 true) eq_refl eq_refl)).
Defined.

Lemma exit_with_text_witness :
  promise (run parse_only_hi (λ _, [])
             [StdoutData 5 (bytes_of (assistant_hi_line ++ [10%N]));
              Close (Some 7)]
             (askClaude_init 0)).2 = None.
Proof.
  exact (proj1 (proj2 (proj2
    (exit_with_text_leaves_promise_pending parse_only_hi (λ _, []) 5
       eq_refl)))).
Defined.

Lemma exit_without_result_witness :
  settlements None
    (run parse_only_hi (λ _, [])
       [StdoutData 5 (bytes_of (assistant_hi_line ++ [10%N]));
        Close (Some 7); TimerFired]
       (askClaude_init 0)).2 = 0%nat.
Proof.
  exact (proj1 (exit_without_result_settles_nothing parse_only_hi (λ _, []) 5
                  eq_refl)).
Defined.

(** ** The worker's environment *)

Lemma worker_env_agree (env1 env2 : gmap jsstring jsstring) :
  (∀ k, k ≠ str "ANTHROPIC_API_KEY" -> k ≠ str "CLAUDECODE" ->
        env1 !! k = env2 !! k) ->
  worker_env env1 = worker_env env2.
Proof.
  intros Hagree. apply map_eq. intros k. unfold worker_env.
  destruct (decide (k = str "ANTHROPIC_API_KEY")) as [->|Hk1].
  { by rewrite !lookup_delete_eq. }
  rewrite !(lookup_delete_ne _ (str "ANTHROPIC_API_KEY")) by done.
  destruct (decide (k = str "CLAUDECODE")) as [->|Hk2].
  { by rewrite !lookup_delete_eq. }
  rewrite !lookup_delete_ne by done. by apply Hagree.
Qed.

(** C9. Whatever the host environment, the environment given to [spawn]
    has no [ANTHROPIC_API_KEY] and no [CLAUDECODE] entry and the worker's
    stdin is ['ignore']; a host environment that agrees with it on every
    other variable gives the worker the same environment, and the same
    [spawn] request altogether. *)
Theorem worker_env_noninterference
    (env1 : gmap jsstring jsstring) (work_dir text : jsstring)
    (continueSession : bool) (cwd : option jsstring) :
  let req := askClaude_spawn work_dir env1 text continueSession cwd in
  sp_env req !! str "ANTHROPIC_API_KEY" = None
  ∧ sp_env req !! str "CLAUDECODE" = None
  ∧ sp_stdio req !! 0%nat = Some ignore
  ∧ ∀ env2 : gmap jsstring jsstring,
      (∀ k, k ≠ str "ANTHROPIC_API_KEY" -> k ≠ str "CLAUDECODE" ->
            env1 !! k = env2 !! k) ->
      sp_env req
      = sp_env (askClaude_spawn work_dir env2 text continueSession cwd)
      ∧ req = askClaude_spawn work_dir env2 text continueSession cwd.
Proof.
  cbn zeta. unfold askClaude_spawn. cbn [sp_env sp_stdio].
  split; [apply lookup_delete_eq |]. split.
  { unfold worker_env. rewrite lookup_delete_ne by done.
    apply lookup_delete_eq. }
  split; [done |].
  intros env2 Hagree. by rewrite (worker_env_agree env1 env2 Hagree).
Qed.

Lemma worker_env_noninterference_witness :
  sp_env (askClaude_spawn (str "/work")
            (<[str "ANTHROPIC_API_KEY" := str "sk-ant-api03"]>
               {[str "PATH" := str "/bin"]})
            (str "hello") false None)
  = sp_env (askClaude_spawn (str "/work")
              (<[str "CLAUDECODE" := str "1"]> {[str "PATH" := str "/bin"]})
              (str "hello") false None).
Proof.
  refine (proj1 (proj2 (proj2 (proj2
    (worker_env_noninterference _ (str "/work") (str "hello") false None)))
    _ _)).
  intros k Hk1 Hk2. by rewrite !lookup_insert_ne.
Defined.

(** ** The bounded history *)

Lemma paired_app h1 h2 : paired h1 -> paired h2 -> paired (h1 ++ h2).
Proof.
  intros H1 H2. remember (length h1) as n eqn:Hn. revert h1 Hn H1.
  induction n as [n IH] using lt_wf_ind. intros h1 Hn H1.
  destruct h1 as [|[[] c1] [|[[] c2] r]]; try done.
  simpl in *. apply (IH (length r)); [lia | done | done].
Qed.

Lemma paired_drop_2 h : paired h -> paired (drop 2 h).
Proof. destruct h as [|[[] c1] [|[[] c2] r]]; done. Qed.

Lemma push_turn_spec h prompt reply :
  push_turn h prompt reply =
  if decide (length h <= 18)%nat
  then h ++ [Turn user prompt; Turn assistant reply]
  else drop 2 (h ++ [Turn user prompt; Turn assistant reply]).
Proof.
  unfold push_turn. rewrite length_app. simpl.
  destruct (Nat.ltb_spec 20 (length h + 2)); case_decide; done || lia.
Qed.

Section History.
Variable fmtMs : Z -> jsstring.
Variable toFixed4 : float -> jsstring.
Variable ToString : json -> jsstring.
Variable StringToNumber : jsstring -> float.
Variable TypeError_message : throw_site -> jsstring.

(** C7. When a fast-mode turn completes on a stored history of even
    length at most 20, the history stored for the key afterwards has at
    most 20 entries and even length: the new (user, assistant) pair is
    appended at the end, and when that would make 22 entries the oldest
    two (the first pair) are removed and nothing else; the entries that
    remain keep their order and their pairing. *)
Theorem history_eviction (f : inflight) (reply : jsstring) (cost : float)
    (now : Z) (s : store) (h : list turn) :
  arrays s !! f_history f = Some h ->
  (length h <= 20)%nat ->
  Nat.Even (length h) ->
  let s' := (handleMessage_settled fmtMs toFixed4 ToString StringToNumber
               TypeError_message f (SDKDone reply cost) now s).1 in
  let pair := [Turn user (w_text (f_wait f)); Turn assistant reply] in
  ∃ h',
    histories s' !! w_key (f_wait f) = Some (f_history f)
    ∧ arrays s' !! f_history f = Some h'
    ∧ (length h' <= 20)%nat
    ∧ Nat.Even (length h')
    ∧ ((length h <= 18)%nat -> h' = h ++ pair)
    ∧ (length h = 20%nat -> h' = drop 2 h ++ pair)
    ∧ (paired h -> paired h').
Proof.
  intros Hh Hlen Heven. cbn zeta.
  exists (push_turn h (w_text (f_wait f)) reply).
  cbn [handleMessage_settled fst histories arrays]. rewrite Hh.
  cbn [default]. split; [apply lookup_insert_eq |].
  split; [apply list_lookup_insert_eq; by eapply lookup_lt_Some |].
  rewrite push_turn_spec. destruct Heven as [n Hn].
  case_decide as Hcase.
  - rewrite length_app. simpl. repeat split.
    + lia.
    + exists (S n). lia.
    + lia.
    + intros Hp. apply paired_app; done.
  - assert (length h = 20%nat) as H20 by lia.
    rewrite drop_app_le by lia. rewrite length_app, length_drop. simpl.
    repeat split.
    + lia.
    + exists 10%nat. lia.
    + lia.
    + intros Hp. apply paired_app; [by apply paired_drop_2 | done].
Qed.
End History.

(** ** The reset command *)

Lemma in_range_spec lo hi b :
  in_range lo hi b = true ↔ (lo <= b <= hi)%N.
Proof.
  unfold in_range. rewrite andb_true_iff, !N.leb_le. tauto.
Qed.

Lemma in_range_false lo hi b :
  (b < lo ∨ hi < b)%N -> in_range lo hi b = false.
Proof.
  intros H. apply not_true_is_false. rewrite in_range_spec. lia.
Qed.

(** A code unit that matches a lower-case letter under the [i] flag is not
    white space. *)
Lemma letter_not_space c p :
  (97 <= p <= 122)%N ->
  ((if in_range 65 90 c then c + 32 else c) =? p)%N = true ->
  is_space c = false.
Proof.
  intros Hp H. apply N.eqb_eq in H.
  assert (Hc : (65 <= c <= 122)%N).
  { destruct (in_range 65 90 c) eqn:E; [apply in_range_spec in E |]; lia. }
  unfold is_space. rewrite !in_range_false by lia.
  repeat match goal with
         | |- context [(c =? ?n)%N] =>
           rewrite (proj2 (N.eqb_neq c n)) by lia
         end.
  done.
Qed.

Lemma drop_spaces_split l :
  ∃ sp, l = sp ++ drop_spaces l ∧ forallb is_space sp = true.
Proof.
  induction l as [|c l (sp & IH & Hsp)]; [by exists [] |].
  simpl. destruct (is_space c) eqn:E.
  - exists (c :: sp). simpl. rewrite E, Hsp. split; [by f_equal | done].
  - by exists [].
Qed.

(** [trim()] on a text that does not start with white space only removes
    white space at its end. *)
Lemma js_trim_split c r :
  is_space c = false ->
  ∃ sp, c :: r = js_trim (c :: r) ++ sp ∧ forallb is_space sp = true.
Proof.
  intros Hc. unfold js_trim. cbn [drop_spaces]. rewrite Hc.
  destruct (drop_spaces_split (reverse (c :: r))) as (sp & Hsplit & Hsp).
  exists (reverse sp). split.
  - rewrite <- reverse_app, <- Hsplit. by rewrite reverse_involutive.
  - rewrite forallb_forall in *. intros x Hx. apply Hsp.
    apply list_elem_of_In. apply list_elem_of_In in Hx.
    by rewrite elem_of_reverse in Hx.
Qed.

Lemma reset_test_inv s :
  reset_test s = true ->
  ∃ c1 c2 c3 c4 c5 r,
    s = c1 :: c2 :: c3 :: c4 :: c5 :: r
    ∧ starts_with_ci [114; 101; 115; 101; 116]%N [c1; c2; c3; c4; c5] = true
    ∧ is_space c1 = false ∧ is_space c2 = false ∧ is_space c3 = false
    ∧ is_space c4 = false ∧ is_space c5 = false
    ∧ match r with [] => True | c :: _ => is_word c = false end.
Proof.
  unfold reset_test. change (str "reset") with [114; 101; 115; 101; 116]%N.
  intros H. apply andb_true_iff in H as [Hlit Hb].
  destruct s as [|c1 [|c2 [|c3 [|c4 [|c5 r]]]]]; simpl in Hlit;
    rewrite ?andb_false_r in Hlit; try discriminate Hlit.
  exists c1, c2, c3, c4, c5, r.
  repeat (apply andb_true_iff in Hlit as [? Hlit]).
  split; [done |]. split.
  { simpl. by repeat (apply andb_true_iff; split). }
  repeat split; try (eapply letter_not_space; [|eassumption]; lia).
  simpl in Hb. destruct r as [|c r]; [done |]. by apply negb_true_iff.
Qed.

(** A text that matches [/^reset\b/i] still matches it after [trim()]. *)
Lemma reset_test_trim s : reset_test s = true -> reset_test (js_trim s) = true.
Proof.
  intros H.
  destruct (reset_test_inv s H)
    as (c1 & c2 & c3 & c4 & c5 & r & -> & Hlit & H1 & H2 & H3 & H4 & H5 & Hr).
  destruct (js_trim_split c1 (c2 :: c3 :: c4 :: c5 :: r) H1)
    as (sp & Hsplit & Hsp).
  destruct (js_trim (c1 :: c2 :: c3 :: c4 :: c5 :: r))
    as [|a1 [|a2 [|a3 [|a4 [|a5 t]]]]];
    simpl in Hsplit; simplify_eq; simpl in Hsp;
    try (rewrite ?H1, ?H2, ?H3, ?H4, ?H5 in Hsp; discriminate Hsp).
  unfold reset_test. change (str "reset") with [114; 101; 115; 101; 116]%N.
  apply andb_true_iff. split.
  - simpl in *. by rewrite andb_true_r in *.
  - cbn [drop]. destruct t as [|c t]; [done |]. cbn [app] in Hr.
    rewrite drop_0. by rewrite Hr.
Qed.

(** A reset command is not taken for a [quick:] message. *)
Lemma reset_not_quick s : reset_test s = true -> quick_test s = false.
Proof.
  intros H.
  destruct (reset_test_inv s H) as (c1 & c2 & c3 & c4 & c5 & r & -> & Hlit & _).
  unfold quick_test. change (str "quick:") with [113; 117; 105; 99; 107; 58]%N.
  simpl in *. apply andb_true_iff in Hlit as [Hc _].
  apply N.eqb_eq in Hc. rewrite Hc. done.
Qed.

Section Reset.
Variable cfg : config.
Variable toLowerCase : jsstring -> jsstring.
Variable fmtMs : Z -> jsstring.
Variable toFixed4 : float -> jsstring.
Variable ToString : json -> jsstring.
Variable StringToNumber : jsstring -> float.
Variable TypeError_message : throw_site -> jsstring.

Lemma handleMessage_begin_store m s :
  (handleMessage_begin cfg toLowerCase m s).1.1 = s
  ∨ (handleMessage_begin cfg toLowerCase m s).1.1
    = Store (delete (channel m) (histories s)) (arrays s)
            (ccSessions s ∖ {[channel m]}).
Proof.
  unfold handleMessage_begin.
  repeat match goal with
         | |- context [if ?b then _ else _] => destruct b
         end; auto.
Qed.

Lemma quiet_cleared k s s' :
  quiet cfg toLowerCase fmtMs toFixed4 ToString StringToNumber
    TypeError_message k s s' ->
  cleared k s -> cleared k s'.
Proof.
  intros Hq [Hh Hc]. destruct Hq as [m s|w posted now s|f e now s Hk].
  - destruct (handleMessage_begin_store m s) as [-> | ->]; [done |].
    split; cbn [histories ccSessions].
    + destruct (decide (channel m = k)) as [->|Hne].
      * apply lookup_delete_eq.
      * by rewrite lookup_delete_ne.
    + by intros [Hin _]%elem_of_difference.
  - unfold handleMessage_posted. destruct posted as [p|]; [|done].
    destruct (w_quick w); [|done].
    destruct (histories s !! w_key w); done.
  - destruct e; cbn [handleMessage_settled fst]; split;
      cbn [histories ccSessions]; try done.
    + by rewrite lookup_insert_ne.
    + intros [Hin%elem_of_singleton | Hin]%elem_of_union; [|done].
      by apply Hk.
Qed.

Lemma quiet_rtc_cleared k s s' :
  rtc (quiet cfg toLowerCase fmtMs toFixed4 ToString StringToNumber
         TypeError_message k) s s' ->
  cleared k s -> cleared k s'.
Proof. induction 1; eauto using quiet_cleared. Qed.

(** A handler that reaches its invocation in a store that holds nothing
    for its key starts afresh. *)
Lemma handleMessage_posted_cleared w p now s :
  cleared (w_key w) s ->
  ∃ f, (handleMessage_posted w (Some p) now s).2
       = Some (f, if w_quick w then CallSDK (w_text w) []
                  else CallClaude (w_text w) false (w_spawnDir w)).
Proof.
  intros [Hh Hc]. unfold handleMessage_posted. rewrite Hh.
  destruct (w_quick w); [by eexists |].
  rewrite bool_decide_eq_false_2 by done. by eexists.
Qed.

(** C8, amended. A message from the allowed user in a direct-message channel whose
    text matches [/^reset\b/i] deletes the history entry and the
    continuation marker of its key, posts ["Reset."] and ends the handler
    there: no invocation is started. As long as no invocation for that
    key settles afterwards, a handler for that key that reaches its
    invocation calls [askClaude] without the continuation flag in full
    mode, and [askSDK] with the empty history in fast mode. *)
Theorem reset_isolates_state (m : message) (s : store) :
  channel_type m = Some (str "im") ->
  user_id m = ALLOWED_USER cfg ->
  default [] (subtype m) = [] ->
  reset_test (default [] (text m)) = true ->
  let r := handleMessage_begin cfg toLowerCase m s in
  histories r.1.1 = delete (channel m) (histories s)
  ∧ ccSessions r.1.1 = ccSessions s ∖ {[channel m]}
  ∧ (∃ chan thread, r.1.2 = [PostMessage chan thread (str "Reset.")])
  ∧ r.2 = None
  ∧ ∀ s', rtc (quiet cfg toLowerCase fmtMs toFixed4 ToString StringToNumber
                 TypeError_message (channel m)) r.1.1 s' ->
      ∀ w p now, w_key w = channel m ->
        ∃ f, (handleMessage_posted w (Some p) now s').2
             = Some (f, if w_quick w then CallSDK (w_text w) []
                        else CallClaude (w_text w) false (w_spawnDir w)).
Proof.
  intros Him Huser Hsub Hreset. cbn zeta.
  pose proof (reset_test_trim _ Hreset) as Htrim.
  pose proof (reset_not_quick _ Htrim) as Hquick.
  assert (Hne : js_trim (default [] (text m)) ≠ []).
  { intros E. rewrite E in Htrim. discriminate Htrim. }
  assert (Hbegin : ∃ chan thread,
    handleMessage_begin cfg toLowerCase m s =
    (Store (delete (channel m) (histories s)) (arrays s)
           (ccSessions s ∖ {[channel m]}),
     [PostMessage chan thread (str "Reset.")], None)).
  { unfold handleMessage_begin.
    rewrite (bool_decide_eq_true_2 _ Him), (bool_decide_eq_true_2 _ Huser),
      (bool_decide_eq_true_2 _ Hsub), (bool_decide_eq_false_2 _ Hne).
    cbn [negb]. rewrite Hquick, andb_false_r, Htrim. by do 2 eexists. }
  destruct Hbegin as (chan & thread & ->). cbn [fst snd histories ccSessions].
  split; [done |]. split; [done |]. split; [by do 2 eexists |].
  split; [done |].
  intros s' Hq w p now Hk. apply handleMessage_posted_cleared.
  rewrite Hk. eapply quiet_rtc_cleared; [exact Hq |].
  split; cbn [histories ccSessions]; [apply lookup_delete_eq |].
  intros [_ Hin]%elem_of_difference. apply Hin. by apply elem_of_singleton.
Qed.
End Reset.

(** ** Concrete runs of the router *)

(** C8, as stated, fails when an invocation for the key is in flight at
    the reset: its settlement afterwards stores the continuation marker
    again, or the whole earlier history with the new turn, so the next
    full-mode message is invoked with the continuation flag and the next
    fast-mode message sees a history of 20 entries. *)
Lemma reset_undone_by_inflight_invocation :
  reset_race sample_config sample_hello
    (ClaudeDone (Outcome (JStr (str "done")) 1000 None)) store_init
  = Some (CallClaude (str "hello") true (str "/work"))
  ∧ reset_race sample_config_sdk sample_quick
      (SDKDone (str "ok") 0%float) sample_store
    = Some (CallSDK (str "hi")
              (drop 2 ten_turns ++ [Turn user (str "hi");
                                    Turn assistant (str "ok")])).
Proof. split; vm_compute; reflexivity. Qed.

Lemma history_eviction_witness :
  ∃ h',
    arrays (handleMessage_settled (λ _, str "1.0s") (λ _, str "0.0001")
              (λ _, []) (λ _, 0%float) (λ _, [])
              sample_quick_inflight (SDKDone (str "ok") 0%float) 9
              sample_store).1 !! 0%nat = Some h'
    ∧ (length h' <= 20)%nat
    ∧ h' = drop 2 ten_turns ++ [Turn user (str "next");
                                 Turn assistant (str "ok")].
Proof.
  destruct (history_eviction (λ _, str "1.0s") (λ _, str "0.0001")
              (λ _, []) (λ _, 0%float) (λ _, [])
              sample_quick_inflight (str "ok") 0%float 9 sample_store
              ten_turns eq_refl)
    as (h' & _ & Harr & Hlen & _ & _ & Hfull & _).
  - simpl. lia.
  - exists 10%nat. reflexivity.
  - exists h'. split; [exact Harr |]. split; [exact Hlen |].
    apply Hfull. reflexivity.
Defined.

Lemma reset_isolates_state_witness :
  (handleMessage_begin sample_config ascii_lower sample_reset sample_store).2
  = None
  ∧ ∃ f,
      (handleMessage_posted sample_waiting (Some (str "14.5")) 0
         (handleMessage_begin sample_config ascii_lower sample_reset
            sample_store).1.1).2
      = Some (f, CallClaude (str "hello") false (str "/work")).
Proof.
  destruct (reset_isolates_state sample_config ascii_lower
              (λ _, str "1.0s") (λ _, str "0.0001")
              (λ _, []) (λ _, 0%float) (λ _, [])
              sample_reset sample_store eq_refl eq_refl eq_refl eq_refl)
    as (_ & _ & _ & Hnone & Hnext).
  split; [exact Hnone |].
  exact (Hnext _ (rtc_refl _ _) sample_waiting (str "14.5") 0 eq_refl).
Defined.

(** * Further properties *)

(** ** Splitting and joining lines *)

Lemma join_nl_cons l pieces :
  pieces ≠ [] -> join_nl (l :: pieces) = l ++ 10%N :: join_nl pieces.
Proof. by destruct pieces. Qed.

Lemma split_nl_join_nl s : join_nl (split_nl s) = s.
Proof.
  induction s as [|c s IH]; [done |].
  rewrite split_nl_cons. pose proof (split_nl_nonempty s) as Hne.
  destruct (c =? 10)%N eqn:E.
  - apply N.eqb_eq in E as ->. rewrite join_nl_cons by done.
    by rewrite IH.
  - destruct (split_nl s) as [|l [|l' ls]]; [done | |].
    + simpl in *. by rewrite IH.
    + change (join_nl ((c :: l) :: l' :: ls))
        with (c :: (l ++ 10%N :: join_nl (l' :: ls))).
      by rewrite <- IH.
Qed.

Lemma split_nl_no_lf s : Forall no_lf (split_nl s).
Proof.
  induction s as [|c s IH].
  - repeat constructor. unfold no_lf. by intros ?%elem_of_nil.
  - rewrite split_nl_cons. pose proof (split_nl_nonempty s) as Hne.
    destruct (c =? 10)%N eqn:E.
    + constructor; [|done]. unfold no_lf. by intros ?%elem_of_nil.
    + destruct (split_nl s) as [|l ls]; [done |].
      apply Forall_cons in IH as [Hl Hls]. constructor; [|done].
      unfold no_lf in *. intros [Heq|Hin]%elem_of_cons; [|done].
      subst c. by rewrite N.eqb_refl in E.
Qed.

Lemma split_nl_one s : no_lf s -> split_nl s = [s].
Proof.
  induction s as [|c s IH]; [done |]. intros Hs. unfold no_lf in Hs.
  simpl. destruct (N.eqb_spec c 10) as [->|Hc].
  - exfalso. apply Hs. by left.
  - rewrite IH; [done |]. intros Hin. apply Hs. by right.
Qed.

Lemma join_nl_split_nl pieces :
  pieces ≠ [] -> Forall no_lf pieces -> split_nl (join_nl pieces) = pieces.
Proof.
  induction pieces as [|l pieces IH]; [done |]. intros _ Hall.
  apply Forall_cons in Hall as [Hl Hall].
  destruct pieces as [|l' pieces]; [by apply split_nl_one |].
  rewrite join_nl_cons by done.
  rewrite split_nl_app, (split_nl_one l Hl).
  change (removelast [l]) with (@nil jsstring).
  change (default [] (last [l])) with l.
  rewrite split_nl_cons, N.eqb_refl, IH by done.
  cbn [head tail default app]. by rewrite app_nil_r.
Qed.

Lemma join_nl_removelast pieces :
  pieces ≠ [] ->
  join_nl pieces
  = mjoin ((λ l, l ++ [10%N]) <$> removelast pieces)
    ++ default [] (last pieces).
Proof.
  induction pieces as [|l pieces IH]; [done |]. intros _.
  destruct pieces as [|l' pieces]; [done |].
  rewrite join_nl_cons, IH by done.
  change (removelast (l :: l' :: pieces))
    with (l :: removelast (l' :: pieces)).
  rewrite last_cons_cons, fmap_cons. cbn [mjoin list_join].
  by rewrite <- !app_assoc.
Qed.

(** [split('\n')] and [join('\n')] are inverse to each other. *)
Lemma split_join_round_trip (s : jsstring) (pieces : list jsstring) :
  join_nl (split_nl s) = s
  ∧ Forall no_lf (split_nl s)
  ∧ (pieces ≠ [] -> Forall no_lf pieces ->
     split_nl (join_nl pieces) = pieces).
Proof.
  split; [apply split_nl_join_nl |]. split; [apply split_nl_no_lf |].
  apply join_nl_split_nl.
Qed.

Lemma feed_no_lf (d : list Byte.byte) (buf : jsstring) :
  Forall no_lf (feed d buf).1 ∧ no_lf (feed d buf).2.
Proof.
  unfold feed. rewrite feed_text_lines. cbn [fst snd].
  set (s := buf ++ Buffer_toString d).
  pose proof (split_nl_no_lf s) as Hall.
  rewrite <- (removelast_last_default (split_nl s) (split_nl_nonempty s))
    in Hall.
  apply Forall_app in Hall as [H1 H2]. split; [done |].
  by inversion H2.
Qed.

(** X6. The framer loses nothing: whatever the chunk and the carry-over,
    the lines it yields, each followed by a line feed, and then the new
    carry-over spell the old carry-over followed by the decoded chunk; no
    yielded line and no carry-over holds a line feed. *)
Theorem feed_loses_nothing (d : list Byte.byte) (buf : jsstring) :
  mjoin ((λ l, l ++ [10%N]) <$> (feed d buf).1) ++ (feed d buf).2
  = buf ++ Buffer_toString d
  ∧ Forall no_lf (feed d buf).1
  ∧ no_lf (feed d buf).2.
Proof.
  split; [|apply feed_no_lf].
  unfold feed. rewrite feed_text_lines. cbn [fst snd].
  set (s := buf ++ Buffer_toString d).
  pose proof (split_nl_nonempty s) as Hne.
  by rewrite <- join_nl_removelast, split_nl_join_nl.
Qed.

(** ** What the handlers of [askClaude] keep and never do *)

Lemma kills_app a b : kills (a ++ b) = (kills a + kills b)%nat.
Proof.
  induction a as [|x a IH]; [done |]. destruct x; simpl; by rewrite ?IH.
Qed.

Lemma without_logs_app a b :
  without_logs (a ++ b) = without_logs a ++ without_logs b.
Proof.
  induction a as [|x a IH]; [done |]. destruct x; simpl; by rewrite ?IH.
Qed.

Lemma logged_app a b : logged (a ++ b) = logged a ++ logged b.
Proof. apply omap_app. Qed.

Lemma stream_actions_quiet log :
  Forall stream_action log ->
  kills log = 0%nat ∧ without_logs log = log ∧ logged log = [].
Proof.
  induction 1 as [|a log Ha _ (IH1 & IH2 & IH3)]; [done |].
  destruct a; try done; simpl; by rewrite ?IH2.
Qed.

Section Handlers.
Variable JSON_parse : jsstring -> option json.
Variable ToString : json -> jsstring.

Lemma blocks_loop_actions bs a :
  Forall stream_action (blocks_loop ToString bs a).1.2.
Proof.
  revert a. induction bs as [|b bs IH]; intros a; [constructor |].
  assert (Hstep : Forall stream_action
    (if is_str "text" (get "type" b) && truthy (get "text" b)
     then let acc' := a ++ from_option (to_string ToString) []
                                       (get "text" b) in
          let '(a2, out, threw) := blocks_loop ToString bs acc' in
          (a2, OnChunk acc' :: out, threw)
     else blocks_loop ToString bs a).1.2).
  { destruct (is_str "text" (get "type" b) && truthy (get "text" b));
      [|apply IH]. cbn zeta.
    specialize (IH (a ++ from_option (to_string ToString) [] (get "text" b))).
    destruct (blocks_loop ToString bs _) as [[a2 out] threw].
    by constructor. }
  destruct b; try exact Hstep. constructor.
Qed.

Lemma result_actions_stream now st ev :
  Forall stream_action (result_actions ToString now st ev).
Proof.
  unfold result_actions. apply Forall_app. split.
  - destruct (_ && _); by repeat constructor.
  - destruct (_ && _); by repeat constructor.
Qed.

(** A parsed line changes [acc] only and makes stream calls only. *)
Lemma on_event_frame now ev st :
  buf (on_event ToString now ev st).1 = buf st
  ∧ t0 (on_event ToString now ev st).1 = t0 st
  ∧ timer_armed (on_event ToString now ev st).1 = timer_armed st
  ∧ Forall stream_action (on_event ToString now ev st).2.
Proof.
  assert (Hmain : ∀ r,
    r = (if is_str "assistant" (get "type" ev) then
           match content_blocks ev with
           | None => (st, [])
           | Some bs =>
             let '(a, out, threw) := blocks_loop ToString bs (acc st) in
             let st' := ProcState (buf st) a (t0 st) (timer_armed st) in
             if threw then (st', out)
             else (st', out ++ result_actions ToString now st' ev)
           end
         else (st, result_actions ToString now st ev)) ->
    buf r.1 = buf st ∧ t0 r.1 = t0 st ∧ timer_armed r.1 = timer_armed st
    ∧ Forall stream_action r.2).
  { intros r ->. destruct (is_str "assistant" (get "type" ev)).
    - destruct (content_blocks ev) as [bs|]; [|by repeat split].
      pose proof (blocks_loop_actions bs (acc st)) as H.
      destruct (blocks_loop ToString bs (acc st)) as [[a out] threw].
      destruct threw; cbn [fst snd buf t0 timer_armed] in *;
        repeat split; try done.
      apply Forall_app. split; [done | apply result_actions_stream].
    - repeat split. apply result_actions_stream. }
  destruct ev; by apply Hmain.
Qed.

Lemma on_lines_frame now lines st :
  buf (on_lines JSON_parse ToString now lines st).1 = buf st
  ∧ t0 (on_lines JSON_parse ToString now lines st).1 = t0 st
  ∧ timer_armed (on_lines JSON_parse ToString now lines st).1
    = timer_armed st
  ∧ Forall stream_action (on_lines JSON_parse ToString now lines st).2.
Proof.
  revert st. induction lines as [|line lines IH]; intros st;
    [by repeat split |].
  cbn [on_lines].
  assert (H1 : buf (on_line JSON_parse ToString now line st).1 = buf st
    ∧ t0 (on_line JSON_parse ToString now line st).1 = t0 st
    ∧ timer_armed (on_line JSON_parse ToString now line st).1
      = timer_armed st
    ∧ Forall stream_action (on_line JSON_parse ToString now line st).2).
  { unfold on_line. case_bool_decide; [by repeat split |].
    destruct (JSON_parse line); [apply on_event_frame | by repeat split]. }
  destruct (on_line JSON_parse ToString now line st) as [st1 out1].
  specialize (IH st1).
  destruct (on_lines JSON_parse ToString now lines st1) as [st2 out2].
  cbn [fst snd] in *. destruct H1 as (Hb1 & Ht1 & Hm1 & Ha1).
  destruct IH as (Hb2 & Ht2 & Hm2 & Ha2).
  repeat split; try congruence. by apply Forall_app.
Qed.

Lemma on_stdout_frame now d st :
  buf (on_stdout JSON_parse ToString now d st).1 = (feed d (buf st)).2
  ∧ t0 (on_stdout JSON_parse ToString now d st).1 = t0 st
  ∧ timer_armed (on_stdout JSON_parse ToString now d st).1 = timer_armed st
  ∧ Forall stream_action (on_stdout JSON_parse ToString now d st).2.
Proof.
  unfold on_stdout. destruct (feed d (buf st)) as [lines carry].
  apply (on_lines_frame now lines
           (ProcState carry (acc st) (t0 st) (timer_armed st))).
Qed.

Lemma step_keeps e st :
  t0 (step JSON_parse ToString e st).1 = t0 st
  ∧ (timer_armed st = false ->
     timer_armed (step JSON_parse ToString e st).1 = false)
  ∧ (no_lf (buf st) -> no_lf (buf (step JSON_parse ToString e st).1)).
Proof.
  destruct e as [now d|d| |code|m]; cbn [step fst t0 timer_armed buf];
    try done.
  - destruct (on_stdout_frame now d st) as (Hb & Ht & Hm & _).
    split; [done |]. split; [intros; congruence |]. intros _. rewrite Hb.
    apply feed_no_lf.
  - destruct (timer_armed st) eqn:E; cbn [fst t0 timer_armed buf];
      repeat split; intros; done.
Qed.

(** X7. Over any events, the handlers never move the start time [t0],
    never arm the timer again once it has fired or been cleared, and never
    leave a line feed in the carry-over [buf]. *)
Theorem run_keeps_clock_timer_and_buffer (evs : list proc_event)
    (st : proc_state) :
  t0 (run JSON_parse ToString evs st).1 = t0 st
  ∧ (timer_armed st = false ->
     timer_armed (run JSON_parse ToString evs st).1 = false)
  ∧ (no_lf (buf st) -> no_lf (buf (run JSON_parse ToString evs st).1)).
Proof.
  revert st. induction evs as [|e evs IH]; intros st; [done |].
  cbn [run]. pose proof (step_keeps e st) as Hstep.
  destruct (step JSON_parse ToString e st) as [st1 out1].
  specialize (IH st1).
  destruct (run JSON_parse ToString evs st1) as [st2 out2].
  cbn [fst snd] in *. destruct Hstep as (Ht & Hm & Hb).
  destruct IH as (Ht2 & Hm2 & Hb2).
  split; [congruence |]. split; auto.
Qed.

Lemma step_kills e st :
  (kills (step JSON_parse ToString e st).2
   <= if timer_armed st then 1 else 0)%nat
  ∧ (kills (step JSON_parse ToString e st).2 = 1%nat ->
     timer_armed (step JSON_parse ToString e st).1 = false).
Proof.
  destruct e as [now d|d| |code|m]; cbn [step fst snd].
  - destruct (on_stdout_frame now d st) as (_ & _ & _ & Ha).
    destruct (stream_actions_quiet _ Ha) as (-> & _).
    split; [lia | done].
  - case_bool_decide; simpl; split; (lia || done).
  - destruct (timer_armed st); simpl; split; (lia || done).
  - destruct (_ && _); simpl; split; (lia || done).
  - simpl. split; (lia || done).
Qed.

(** X8. The worker is killed at most once, only by the timer, and never
    after ['close'] or ['error'] has cleared it: the events that follow a
    ['close'] or an ['error'] add no [kill]. *)
Theorem worker_killed_at_most_once (evs evs' : list proc_event)
    (st : proc_state) :
  (kills (run JSON_parse ToString evs st).2 <= 1)%nat
  ∧ (∀ code,
       kills (run JSON_parse ToString (evs ++ Close code :: evs') st).2
       = kills (run JSON_parse ToString evs st).2)
  ∧ (∀ m,
       kills (run JSON_parse ToString (evs ++ ProcError m :: evs') st).2
       = kills (run JSON_parse ToString evs st).2)
  ∧ (TimerFired ∉ evs -> kills (run JSON_parse ToString evs st).2 = 0%nat).
Proof.
  assert (Hbound : ∀ l s,
    (kills (run JSON_parse ToString l s).2
     <= if timer_armed s then 1 else 0)%nat).
  { induction l as [|e l IH]; intros s;
      [simpl; destruct (timer_armed s); lia |].
    cbn [run]. destruct (step_kills e s) as [H1 H2].
    destruct (step_keeps e s) as (_ & Hm & _).
    destruct (step JSON_parse ToString e s) as [s1 out1].
    specialize (IH s1). destruct (run JSON_parse ToString l s1) as [s2 out2].
    cbn [fst snd] in *. rewrite kills_app.
    destruct (timer_armed s) eqn:Es.
    - destruct (timer_armed s1) eqn:E1; [|lia].
      destruct (kills out1) as [|[|n]] eqn:Ek; [lia | | lia].
      by specialize (H2 eq_refl).
    - rewrite (Hm eq_refl) in IH. lia. }
  assert (Hafter : ∀ e, (∀ s, timer_armed (step JSON_parse ToString e s).1
                              = false) ->
    (∀ s, kills (step JSON_parse ToString e s).2 = 0%nat) ->
    kills (run JSON_parse ToString (evs ++ e :: evs') st).2
    = kills (run JSON_parse ToString evs st).2).
  { intros e Hclr Hnk. rewrite run_app. cbn [snd run].
    set (s1 := (run JSON_parse ToString evs st).1).
    specialize (Hclr s1). specialize (Hnk s1).
    destruct (step JSON_parse ToString e s1) as [s2 out2].
    specialize (Hbound evs' s2).
    destruct (run JSON_parse ToString evs' s2) as [s3 out3].
    cbn [fst snd] in *. rewrite Hclr in Hbound.
    rewrite !kills_app, Hnk. lia. }
  split; [|split; [|split]].
  - specialize (Hbound evs st). destruct (timer_armed st); lia.
  - intros code. apply Hafter; intros s; [done |].
    cbn [step snd]. by destruct (_ && _).
  - intros m. by apply Hafter.
  - clear Hbound Hafter. revert st.
    induction evs as [|e evs IH]; intros st Hno; [done |].
    cbn [run].
    assert (He : kills (step JSON_parse ToString e st).2 = 0%nat).
    { destruct e as [now d|d| |code|m]; cbn [step snd].
      - destruct (on_stdout_frame now d st) as (_ & _ & _ & Ha).
        by destruct (stream_actions_quiet _ Ha) as (-> & _).
      - by case_bool_decide.
      - exfalso. apply Hno. by left.
      - by destruct (_ && _).
      - done. }
    destruct (step JSON_parse ToString e st) as [st1 out1].
    specialize (IH st1). destruct (run JSON_parse ToString evs st1).
    cbn [fst snd] in *. rewrite kills_app, He, IH; [done |].
    intros Hin. apply Hno. by right.
Qed.

Lemma step_logs e st :
  match e with
  | StderrData _ =>
    (step JSON_parse ToString e st).1 = st
    ∧ without_logs (step JSON_parse ToString e st).2 = []
  | _ =>
    without_logs (step JSON_parse ToString e st).2
    = (step JSON_parse ToString e st).2
    ∧ logged (step JSON_parse ToString e st).2 = []
  end
  ∧ Forall (λ l, (length l <= 155)%nat)
           (logged (step JSON_parse ToString e st).2).
Proof.
  destruct e as [now d|d| |code|m]; cbn [step fst snd].
  - destruct (on_stdout_frame now d st) as (_ & _ & _ & Ha).
    destruct (stream_actions_quiet _ Ha) as (_ & -> & ->). by repeat split.
  - set (t := js_trim (Buffer_toString d)). case_bool_decide.
    + by repeat split.
    + split; [by split |].
      change (logged [ConsoleLog (str "[cc] " ++ take 150 t)])
        with [str "[cc] " ++ take 150 t].
      apply Forall_singleton. rewrite length_app, length_take.
      change (length (str "[cc] ")) with 5%nat. lia.
  - by destruct (timer_armed st).
  - by destruct (_ && _).
  - done.
Qed.

(** X9. What the worker writes to stderr is diagnostic only: dropping the
    stderr chunks from the events changes neither the closure nor any call
    but the [console.log] calls, which the other events never make; and a
    logged line has at most 155 code units (the tag and 150 of the
    text). *)
Theorem stderr_is_diagnostic_only (evs : list proc_event) (st : proc_state) :
  (run JSON_parse ToString (without_stderr evs) st).1
  = (run JSON_parse ToString evs st).1
  ∧ (run JSON_parse ToString (without_stderr evs) st).2
    = without_logs (run JSON_parse ToString evs st).2
  ∧ Forall (λ l, (length l <= 155)%nat)
           (logged (run JSON_parse ToString evs st).2).
Proof.
  revert st. induction evs as [|e evs IH]; intros st; [by repeat split |].
  pose proof (step_logs e st) as [He Hlen].
  assert (Hcons : ∀ e', (∀ d, e' ≠ StderrData d) ->
            without_stderr (e' :: evs) = e' :: without_stderr evs).
  { intros e' Hne. destruct e'; try done. by destruct (Hne d). }
  destruct e as [now d|d| |code|m];
    try (rewrite Hcons by done; cbn [run];
         destruct He as [Hl _];
         destruct (step JSON_parse ToString _ st) as [st1 out1];
         specialize (IH st1);
         destruct (run JSON_parse ToString evs st1) as [st2 out2];
         destruct (run JSON_parse ToString (without_stderr evs) st1)
           as [st3 out3];
         cbn [fst snd] in *; destruct IH as (-> & -> & IH3);
         rewrite without_logs_app, logged_app, Hl;
         repeat split; try done; by apply Forall_app).
  cbn [without_stderr run]. destruct He as [Hs Hl].
  destruct (step JSON_parse ToString (StderrData d) st) as [st1 out1].
  cbn [fst snd] in *. subst st1. specialize (IH st).
  destruct (run JSON_parse ToString evs st) as [st2 out2].
  destruct (run JSON_parse ToString (without_stderr evs) st) as [st3 out3].
  cbn [fst snd] in *. destruct IH as (-> & -> & IH3).
  rewrite without_logs_app, logged_app, Hl.
  repeat split; try done. by apply Forall_app.
Qed.

Lemma on_lines_app now l1 l2 st :
  on_lines JSON_parse ToString now (l1 ++ l2) st =
  ((on_lines JSON_parse ToString now l2
      (on_lines JSON_parse ToString now l1 st).1).1,
   (on_lines JSON_parse ToString now l1 st).2
   ++ (on_lines JSON_parse ToString now l2
         (on_lines JSON_parse ToString now l1 st).1).2).
Proof.
  revert st. induction l1 as [|l l1 IH]; intros st.
  - cbn [app on_lines fst snd].
    by destruct (on_lines JSON_parse ToString now l2 st).
  - cbn [app on_lines].
    destruct (on_line JSON_parse ToString now l st) as [st1 out1].
    rewrite IH.
    destruct (on_lines JSON_parse ToString now l1 st1) as [st2 out2].
    cbn [fst snd]. by rewrite app_assoc.
Qed.

Lemma on_line_skipped now line st :
  skipped JSON_parse line ->
  on_line JSON_parse ToString now line st = (st, []).
Proof.
  unfold on_line. intros [H | [H | (ev & H & Ha & Hr)]].
  - by rewrite bool_decide_eq_true_2.
  - case_bool_decide; [done |]. by rewrite H.
  - case_bool_decide; [done |]. rewrite H.
    destruct ev; try done.
    unfold on_event, result_actions. by rewrite Ha, Hr.
Qed.

(** X10. A line that is blank, that is not JSON, or whose [type] is neither
    ['assistant'] nor ['result'] is passed over wherever it stands among
    the lines of a chunk: the closure and the calls are those of the lines
    without it. *)
Theorem unrecognized_line_is_skipped (now : Z) (l1 l2 : list jsstring)
    (line : jsstring) (st : proc_state) :
  skipped JSON_parse line ->
  on_lines JSON_parse ToString now (l1 ++ line :: l2) st
  = on_lines JSON_parse ToString now (l1 ++ l2) st.
Proof.
  intros H. rewrite !on_lines_app. cbn [on_lines].
  rewrite (on_line_skipped now line _ H).
  by destruct (on_lines JSON_parse ToString now l2 _).
Qed.

Lemma default_last_app (a : jsstring) (l1 l2 : list jsstring) :
  default a (last (l1 ++ l2)) = default (default a (last l1)) (last l2).
Proof. rewrite last_app. by destruct (last l2). Qed.

Lemma blocks_loop_last bs a :
  (blocks_loop ToString bs a).1.1
  = default a (last (snapshots (blocks_loop ToString bs a).1.2)).
Proof.
  revert a. induction bs as [|b bs IH]; intros a; [done |].
  assert (Hstep : ∀ r,
    r = (if is_str "text" (get "type" b) && truthy (get "text" b)
         then let acc' := a ++ from_option (to_string ToString) []
                                           (get "text" b) in
              let '(a2, out, threw) := blocks_loop ToString bs acc' in
              (a2, OnChunk acc' :: out, threw)
         else blocks_loop ToString bs a) ->
    r.1.1 = default a (last (snapshots r.1.2))).
  { intros r ->.
    destruct (is_str "text" (get "type" b) && truthy (get "text" b));
      [|apply IH]. cbn zeta.
    set (acc' := a ++ from_option (to_string ToString) [] (get "text" b)).
    specialize (IH acc').
    destruct (blocks_loop ToString bs acc') as [[a2 out] threw].
    cbn [fst snd] in *.
    change (snapshots (OnChunk acc' :: out)) with ([acc'] ++ snapshots out).
    by rewrite default_last_app. }
  destruct b; try (by apply Hstep). done.
Qed.

Lemma on_event_last now ev st :
  acc (on_event ToString now ev st).1
  = default (acc st) (last (snapshots (on_event ToString now ev st).2)).
Proof.
  assert (Hmain : ∀ r,
    r = (if is_str "assistant" (get "type" ev) then
           match content_blocks ev with
           | None => (st, [])
           | Some bs =>
             let '(a, out, threw) := blocks_loop ToString bs (acc st) in
             let st' := ProcState (buf st) a (t0 st) (timer_armed st) in
             if threw then (st', out)
             else (st', out ++ result_actions ToString now st' ev)
           end
         else (st, result_actions ToString now st ev)) ->
    acc r.1 = default (acc st) (last (snapshots r.2))).
  { intros r ->. destruct (is_str "assistant" (get "type" ev)).
    - destruct (content_blocks ev) as [bs|]; [|done].
      pose proof (blocks_loop_last bs (acc st)) as H.
      destruct (blocks_loop ToString bs (acc st)) as [[a out] threw].
      cbn [fst snd] in H.
      destruct threw; cbn [fst snd acc]; [done |].
      by rewrite snapshots_app, result_actions_snapshots, app_nil_r.
    - cbn [fst snd]. by rewrite result_actions_snapshots. }
  destruct ev; by apply Hmain.
Qed.

Lemma on_lines_last now lines st :
  acc (on_lines JSON_parse ToString now lines st).1
  = default (acc st)
      (last (snapshots (on_lines JSON_parse ToString now lines st).2)).
Proof.
  revert st. induction lines as [|line lines IH]; intros st; [done |].
  cbn [on_lines].
  assert (H1 : acc (on_line JSON_parse ToString now line st).1
    = default (acc st)
        (last (snapshots (on_line JSON_parse ToString now line st).2))).
  { unfold on_line. case_bool_decide; [done |].
    destruct (JSON_parse line); [apply on_event_last | done]. }
  destruct (on_line JSON_parse ToString now line st) as [st1 out1].
  specialize (IH st1).
  destruct (on_lines JSON_parse ToString now lines st1) as [st2 out2].
  cbn [fst snd] in *.
  by rewrite snapshots_app, default_last_app, <- H1.
Qed.

(** X11. The accumulated text is always the snapshot that [onChunk]
    received last (the initial text before the first call): [acc] never
    changes without a call of [onChunk] that shows it. *)
Theorem accumulated_text_is_last_snapshot (evs : list proc_event)
    (st : proc_state) :
  acc (run JSON_parse ToString evs st).1
  = default (acc st) (last (snapshots (run JSON_parse ToString evs st).2)).
Proof.
  revert st. induction evs as [|e evs IH]; intros st; [done |].
  cbn [run].
  assert (H1 : acc (step JSON_parse ToString e st).1
    = default (acc st)
        (last (snapshots (step JSON_parse ToString e st).2))).
  { destruct e as [now d|d| |code|m]; cbn [step fst snd acc].
    - unfold on_stdout. destruct (feed d (buf st)) as [lines carry].
      apply (on_lines_last now lines
               (ProcState carry (acc st) (t0 st) (timer_armed st))).
    - by case_bool_decide.
    - by destruct (timer_armed st).
    - by destruct (_ && _).
    - done. }
  destruct (step JSON_parse ToString e st) as [st1 out1].
  specialize (IH st1).
  destruct (run JSON_parse ToString evs st1) as [st2 out2].
  cbn [fst snd] in *.
  by rewrite snapshots_app, default_last_app, <- H1.
Qed.

(** X12. A result event whose [is_error] is truthy rejects a pending
    promise with the event's [result] as the message, or with
    ['Claude error'] when it has none, unless its subtype is ['success']:
    then the promise is resolved, [resolve] being called first. *)
Theorem result_error_rejects (now : Z) (ev : json) (st : proc_state) :
  is_str "result" (get "type" ev) = true ->
  truthy (get "is_error" ev) = true ->
  (on_event ToString now ev st).1 = st
  ∧ promise (on_event ToString now ev st).2
    = if is_str "success" (get "subtype" ev)
      then Some (Fulfilled
                   (Outcome (if truthy (get "result" ev)
                             then default JNull (get "result" ev)
                             else JStr (acc st))
                            (now - t0 st)
                            (get "total_cost_usd" ev)))
      else Some (Rejected
                   (to_string ToString
                      (if truthy (get "result" ev)
                       then default JNull (get "result" ev)
                       else JStr (str "Claude error")))).
Proof.
  intros Htype Herr.
  assert (Hnot : is_str "assistant" (get "type" ev) = false).
  { unfold is_str in *. destruct (get "type" ev) as [[]|]; try done.
    apply bool_decide_eq_true in Htype. subst s.
    by apply bool_decide_eq_false. }
  destruct ev; try discriminate Htype.
  unfold on_event. rewrite Hnot. unfold result_actions.
  rewrite Htype, Herr. cbn [andb fst snd].
  by destruct (is_str "success" (get "subtype" (JObj props))).
Qed.
End Handlers.

(** ** The stream of [askSDK] *)

Lemma askSDK_stream_lookup deltas a i :
  (i < length deltas)%nat ->
  (askSDK_stream deltas a).2 !! i = Some (a ++ mjoin (take (S i) deltas)).
Proof.
  revert a i. induction deltas as [|t deltas IH]; intros a i Hi;
    [simpl in Hi; lia |].
  cbn [askSDK_stream]. specialize (IH (a ++ t)).
  destruct (askSDK_stream deltas (a ++ t)) as [a' out]. cbn [snd] in *.
  destruct i as [|i].
  - cbn. by rewrite app_nil_r.
  - change (((a ++ t) :: out) !! S i) with (out !! i).
    rewrite (IH i) by (simpl in Hi; lia).
    change (take (S (S i)) (t :: deltas)) with (t :: take (S i) deltas).
    cbn [mjoin list_join]. by rewrite app_assoc.
Qed.

(** X13. [askSDK] passes cumulative text to [onChunk]: one snapshot per
    text delta, the i-th being all deltas so far appended to one another,
    and the result it returns is all deltas, which is the last snapshot
    when there was any delta. *)
Theorem askSDK_snapshots_are_cumulative (deltas : list jsstring) :
  (askSDK_stream deltas []).1 = mjoin deltas
  ∧ length (askSDK_stream deltas []).2 = length deltas
  ∧ (∀ i, (i < length deltas)%nat ->
          (askSDK_stream deltas []).2 !! i = Some (mjoin (take (S i) deltas)))
  ∧ (askSDK_stream deltas []).1
    = default [] (last (askSDK_stream deltas []).2).
Proof.
  assert (Hres : ∀ ds a, (askSDK_stream ds a).1 = a ++ mjoin ds
                         ∧ length (askSDK_stream ds a).2 = length ds).
  { induction ds as [|t ds IH]; intros a; [by rewrite app_nil_r |].
    cbn [askSDK_stream]. specialize (IH (a ++ t)).
    destruct (askSDK_stream ds (a ++ t)) as [a' out]. cbn [fst snd] in *.
    destruct IH as [-> Hl]. cbn [mjoin list_join length].
    by rewrite app_assoc, Hl. }
  destruct (Hres deltas []) as [Hr Hl].
  split; [done |]. split; [done |]. split.
  - intros i Hi. by rewrite askSDK_stream_lookup.
  - rewrite last_lookup, Hl, Hr.
    destruct deltas as [|t deltas]; [done |].
    cbn [length pred]. rewrite askSDK_stream_lookup by (simpl; lia).
    cbn [default app]. by rewrite take_ge by (simpl; lia).
Qed.

(** ** More on the throttler and on [trim] *)

Lemma liveUpdates_spaced calls st :
  spaced (lastAt st) (liveUpdates calls st).2
  ∧ (liveUpdates calls st).2
    `sublist_of` (λ c, (c.1, trim c.2 None)) <$> calls.
Proof.
  revert st. induction calls as [|[now t] calls IH]; intros st; [done |].
  cbn [liveUpdates]. pose proof (liveUpdate_forwards now t st) as Hf.
  pose proof (liveUpdate_lastAt now t st) as Hat.
  destruct (liveUpdate now t st) as [st1 o]. specialize (IH st1).
  destruct (liveUpdates calls st1) as [st2 out].
  cbn [fst snd] in *. destruct IH as [IH1 IH2]. rewrite fmap_cons.
  destruct o as [x|]; cbn [from_option app].
  - case_bool_decide as Hc; [|done]. injection Hf as ->.
    rewrite Hat in IH1. split; [split; [tauto | done] |].
    by apply sublist_skip.
  - rewrite Hat in IH1. split; [done | by apply sublist_cons].
Qed.

(** X14. The updates [liveUpdate] forwards are at least 600ms apart by the
    clock values it read, the first one at least 600 after clock value 0,
    and they are, in order, truncations of snapshots it was called with:
    nothing is forwarded twice for one call, reordered or made up. *)
Theorem liveUpdate_rate_limit (calls : list (Z * jsstring)) :
  spaced 0 (liveUpdates calls throttle_init).2
  ∧ (liveUpdates calls throttle_init).2
    `sublist_of` (λ c, (c.1, trim c.2 None)) <$> calls.
Proof. apply (liveUpdates_spaced calls throttle_init). Qed.

Lemma trim_budget_short (t : jsstring) (m : Z) :
  m ≠ 0 -> js_length t <= m -> trim t (Some m) = t.
Proof.
  intros Hm H. unfold trim. rewrite (proj2 (Z.eqb_neq m 0) Hm).
  by rewrite (proj2 (Z.leb_le _ _) H).
Qed.

Lemma trim_budget_long (t : jsstring) (m : Z) :
  m ≠ 0 -> m < js_length t ->
  trim t (Some m) = str "..." ++ js_slice_from t (- (m - 3)).
Proof.
  intros Hm H. unfold trim. rewrite (proj2 (Z.eqb_neq m 0) Hm).
  by rewrite (proj2 (Z.leb_gt _ _) H).
Qed.

(** X15. [trim] with an explicit budget [m]: a budget of [0] is the default
    budget; with [m > 3] the result has at most [m] code units and, when
    the text is longer, is ['...'] and the last [m - 3] code units; with a
    budget of 1, 2 or 3 a longer text comes out as ['...'] and the text
    without its first [3 - m] code units (all of it for a budget of 3),
    which is [m] code units longer than the text. With the default budget,
    trimming twice is trimming once. *)
Theorem trim_budget (t : jsstring) (m : Z) :
  trim t (Some 0) = trim t None
  ∧ (3 < m -> js_length (trim t (Some m)) <= m)
  ∧ (3 < m -> m < js_length t ->
     trim t (Some m)
     = str "..." ++ drop (length t - Z.to_nat (m - 3)) t)
  ∧ (0 < m <= 3 -> m < js_length t ->
     trim t (Some m) = str "..." ++ drop (Z.to_nat (3 - m)) t
     ∧ js_length (trim t (Some m)) = js_length t + m)
  ∧ trim (trim t None) None = trim t None.
Proof.
  split; [done |]. split; [|split; [|split]].
  - intros Hm. destruct (Z.le_gt_cases (js_length t) m) as [H|H].
    + by rewrite trim_budget_short by lia.
    + rewrite trim_budget_long by lia. unfold js_slice_from, js_length in *.
      rewrite length_app, length_drop.
      change (length (str "...")) with 3%nat.
      destruct (Z.ltb_spec (- (m - 3)) 0); lia.
  - intros Hm H. rewrite trim_budget_long by lia. f_equal.
    unfold js_slice_from, js_length in *.
    destruct (Z.ltb_spec (- (m - 3)) 0) as [Hn|Hn]; [|lia].
    f_equal. lia.
  - intros Hm H. rewrite trim_budget_long by lia.
    unfold js_slice_from, js_length in *.
    destruct (Z.ltb_spec (- (m - 3)) 0) as [Hn|Hn]; [lia |].
    replace (Z.min (- (m - 3)) (Z.of_nat (length t))) with (3 - m) by lia.
    split; [done |]. rewrite length_app, length_drop.
    change (length (str "...")) with 3%nat. lia.
  - apply trim_short, trim_length.
Qed.

(** ** The guards and the thread of [handleMessage] *)

Lemma drop_digits_app a rest :
  digits a -> drop_digits (a ++ rest) = drop_digits rest.
Proof.
  induction 1 as [|c a Hc _ IH]; [done |]. simpl. by rewrite Hc.
Qed.

Lemma drop_digits_split s :
  ∃ ds, s = ds ++ drop_digits s ∧ digits ds.
Proof.
  induction s as [|c s (ds & IH & Hds)];
    [exists []; split; [done | constructor] |].
  simpl. destruct (is_digit c) eqn:E.
  - exists (c :: ds). split; [simpl; by rewrite <- IH | by constructor].
  - exists []. split; [done | constructor].
Qed.

Lemma forallb_digits s : forallb is_digit s = true ↔ digits s.
Proof.
  unfold digits. rewrite forallb_forall, Forall_forall.
  split; intros H x Hx; apply H; by apply list_elem_of_In.
Qed.

(** X16. [isValidTs] accepts exactly the texts made of one or more decimal
    digits, a dot, and one or more decimal digits; [undefined] is not
    valid. *)
Theorem isValidTs_spec (s : jsstring) :
  isValidTs None = false
  ∧ (isValidTs (Some s) = true
     ↔ ∃ a b, s = a ++ 46%N :: b ∧ a ≠ [] ∧ b ≠ [] ∧ digits a ∧ digits b).
Proof.
  split; [done |]. split.
  - destruct s as [|c r]; [done |]. cbn [isValidTs].
    intros [Hc H]%andb_true_iff.
    destruct (drop_digits_split r) as (ds & Hr & Hds).
    destruct (drop_digits r) as [|dot [|d r']]; try done.
    apply andb_true_iff in H as [[Hdot Hd]%andb_true_iff Hr'].
    apply N.eqb_eq in Hdot as ->.
    exists (c :: ds), (d :: r'). rewrite Hr.
    repeat split; try done.
    + by constructor.
    + constructor; [done | by apply forallb_digits].
  - intros (a & b & -> & Ha & Hb & Hda & Hdb).
    destruct a as [|c a]; [done |]. destruct b as [|d b]; [done |].
    apply Forall_cons in Hda as [Hc Hda]. apply Forall_cons in Hdb as [Hd Hdb].
    cbn [isValidTs app]. rewrite Hc, (drop_digits_app a _ Hda).
    cbn [drop_digits]. change (is_digit 46) with false. cbn iota.
    rewrite N.eqb_refl, Hd. by apply forallb_digits in Hdb as ->.
Qed.

Section Guards.
Variable cfg : config.
Variable toLowerCase : jsstring -> jsstring.

(** X17. A message that is not from a direct-message channel, not from the
    allowed user, has a subtype, or has only white space for text is
    ignored: the store is untouched, nothing is posted and no invocation
    will follow. Every other message posts exactly one message, in the
    direct-message channel when it is known and in the message's channel
    otherwise, in reply to a thread only when the time stamp is a valid
    one; the handler goes on to an invocation unless that post is the
    answer to a reset. *)
Theorem handleMessage_guards (m : message) (s : store) :
  (ignored cfg m -> handleMessage_begin cfg toLowerCase m s = (s, [], None))
  ∧ (¬ ignored cfg m ->
     ∃ thread body,
       (handleMessage_begin cfg toLowerCase m s).1.2
       = [PostMessage (match DM_CHANNEL cfg with
                       | Some (c :: r) => c :: r
                       | _ => channel m
                       end) thread body]
       ∧ (thread = None ∨ isValidTs thread = true)
       ∧ ((handleMessage_begin cfg toLowerCase m s).2 = None
          ↔ body = str "Reset.")).
Proof.
  unfold ignored, handleMessage_begin. split.
  - intros [H | [H | [H | H]]].
    + by rewrite (bool_decide_eq_false_2 _ H).
    + case_bool_decide; [|done]. by rewrite (bool_decide_eq_false_2 _ H).
    + repeat (case_bool_decide; try done).
    + repeat (case_bool_decide; try done).
  - intros H.
    assert (H1 : channel_type m = Some (str "im")).
    { destruct (decide (channel_type m = Some (str "im"))); tauto. }
    assert (H2 : user_id m = ALLOWED_USER cfg).
    { destruct (decide (user_id m = ALLOWED_USER cfg)); tauto. }
    assert (H3 : default [] (subtype m) = []).
    { destruct (decide (default [] (subtype m) = [])); tauto. }
    assert (H4 : js_trim (default [] (text m)) ≠ []) by tauto.
    rewrite (bool_decide_eq_true_2 _ H1), (bool_decide_eq_true_2 _ H2),
      (bool_decide_eq_true_2 _ H3), (bool_decide_eq_false_2 _ H4).
    cbn [negb].
    set (thread := if isValidTs (thread_ts m) then thread_ts m
                   else if isValidTs (ts m) then ts m else None).
    assert (Hthread : thread = None ∨ isValidTs thread = true).
    { unfold thread. destruct (isValidTs (thread_ts m)) eqn:E1; [by right |].
      destruct (isValidTs (ts m)) eqn:E2; [by right | by left]. }
    destruct (reset_test _).
    + exists thread, (str "Reset."). by repeat split.
    + destruct (USE_SDK cfg && quick_test _);
        eexists thread, _; (split; [reflexivity |]); (split; [done |]);
        split; intros Hx; discriminate Hx.
Qed.
End Guards.

(** ** What settling does to the sessions *)

Section Sessions.
Variable fmtMs : Z -> jsstring.
Variable toFixed4 : float -> jsstring.
Variable ToString : json -> jsstring.
Variable StringToNumber : jsstring -> float.
Variable TypeError_message : throw_site -> jsstring.

(** X18. Continuation: once a full-mode invocation has resolved, a handler
    of the same key that reaches its invocation in full mode calls
    [askClaude] with the continuation flag, and the worker is then spawned
    with [--continue] before [-p] and the prompt; in the initial store it
    is called without the flag and spawned without [--continue]. *)
Theorem continuation_after_success (f : inflight) (o : outcome)
    (now now' : Z) (s : store) (w : waiting) (p : jsstring)
    (work_dir : jsstring) (env : gmap jsstring jsstring) :
  w_key w = w_key (f_wait f) ->
  w_quick w = false ->
  let s' := (handleMessage_settled fmtMs toFixed4 ToString StringToNumber
               TypeError_message f (ClaudeDone o) now s).1 in
  snd <$> (handleMessage_posted w (Some p) now' s').2
  = Some (CallClaude (w_text w) true (w_spawnDir w))
  ∧ snd <$> (handleMessage_posted w (Some p) now' store_init).2
    = Some (CallClaude (w_text w) false (w_spawnDir w))
  ∧ sp_args (askClaude_spawn work_dir env (w_text w) true
               (Some (w_spawnDir w)))
    = [str "--dangerously-skip-permissions"; str "--model";
       str "claude-haiku-4-5-20251001"; str "--output-format";
       str "stream-json"; str "--verbose"; str "--continue";
       str "-p"; w_text w]
  ∧ sp_args (askClaude_spawn work_dir env (w_text w) false
               (Some (w_spawnDir w)))
    = [str "--dangerously-skip-permissions"; str "--model";
       str "claude-haiku-4-5-20251001"; str "--output-format";
       str "stream-json"; str "--verbose"; str "-p"; w_text w].
Proof.
  intros Hk Hq. cbn zeta. unfold handleMessage_posted. rewrite Hq.
  cbn [handleMessage_settled fst snd ccSessions fmap option_fmap option_map].
  split; [|by repeat split].
  rewrite bool_decide_eq_true_2; [done |].
  rewrite Hk. apply elem_of_union_l. by apply elem_of_singleton.
Qed.

(** X19. The history a fast-mode turn stores is the history the next
    fast-mode turn of the key sends: after [askSDK] has returned [reply]
    for the prompt of a handler whose array holds [h], a handler of the
    same key calls [askSDK] with [h], the prompt and the reply (less the
    oldest pair when that makes more than 20 entries), and [askSDK] sends
    them followed by the new prompt. *)
Theorem history_round_trip (f : inflight) (reply : jsstring) (cost : float)
    (now now' : Z) (s : store) (h : list turn) (w : waiting) (p : jsstring) :
  arrays s !! f_history f = Some h ->
  w_key w = w_key (f_wait f) ->
  w_quick w = true ->
  let s' := (handleMessage_settled fmtMs toFixed4 ToString StringToNumber
               TypeError_message f (SDKDone reply cost) now s).1 in
  snd <$> (handleMessage_posted w (Some p) now' s').2
  = Some (CallSDK (w_text w) (push_turn h (w_text (f_wait f)) reply))
  ∧ askSDK_messages (w_text w) (push_turn h (w_text (f_wait f)) reply)
    = push_turn h (w_text (f_wait f)) reply ++ [Turn user (w_text w)]
  ∧ (handleMessage_posted w (Some p) now' s').1 = s'.
Proof.
  intros Hh Hk Hq. cbn zeta. unfold handleMessage_posted. rewrite Hq, Hk.
  cbn [handleMessage_settled fst snd histories arrays].
  rewrite lookup_insert_eq, Hh. cbn [default fst snd].
  rewrite list_lookup_insert_eq by (by eapply lookup_lt_Some).
  done.
Qed.

(** X20. Settling touches the state of its own key only: the history
    entries and continuation markers of the other keys and the arrays other
    than its own stay as they are. A failed invocation changes nothing at
    all, a fast-mode success no continuation marker, and a full-mode
    success no history. *)
Theorem settling_is_local (f : inflight) (e : ending) (now : Z) (s : store)
    (k : jsstring) (r : nat) :
  let s' := (handleMessage_settled fmtMs toFixed4 ToString StringToNumber
               TypeError_message f e now s).1 in
  (k ≠ w_key (f_wait f) ->
   histories s' !! k = histories s !! k
   ∧ (k ∈ ccSessions s' ↔ k ∈ ccSessions s))
  ∧ (r ≠ f_history f -> arrays s' !! r = arrays s !! r)
  ∧ length (arrays s') = length (arrays s)
  ∧ match e with
    | Failed _ => s' = s
    | SDKDone _ _ => ccSessions s' = ccSessions s
    | ClaudeDone _ => histories s' = histories s ∧ arrays s' = arrays s
    end.
Proof.
  cbn zeta. destruct e as [reply cost|o|msg];
    cbn [handleMessage_settled fst histories arrays ccSessions].
  - split; [|split; [|split]]; try done.
    + intros Hk. by rewrite lookup_insert_ne.
    + intros Hr. by rewrite list_lookup_insert_ne.
    + apply length_insert.
  - split; [|split; [|split]]; try done.
    intros Hk. split; [done |]. rewrite elem_of_union, elem_of_singleton.
    tauto.
  - by repeat split.
Qed.
End Sessions.

(** ** The working directory *)

Lemma includes_spec hay needle :
  includes hay needle = true ↔ occurs_in needle hay.
Proof.
  unfold occurs_in. induction hay as [|c hay IH].
  - cbn [includes]. rewrite orb_false_r, bool_decide_eq_true. split.
    + intros [k Hk]. by exists [], k.
    + intros (pre & post & H). symmetry in H.
      apply app_eq_nil in H as [-> H]. apply app_eq_nil in H as [-> ->].
      by exists [].
  - cbn [includes]. rewrite orb_true_iff, bool_decide_eq_true, IH. split.
    + intros [[k Hk] | (pre & post & ->)].
      * by exists [], k.
      * by exists (c :: pre), post.
    + intros (pre & post & H). destruct pre as [|c' pre].
      * left. by exists post.
      * right. injection H as -> ->. by exists pre, post.
Qed.

Section WorkingDirectory.
Variable toLowerCase : jsstring -> jsstring.

(** X21. The working directory is chosen by the order of the table, not by
    the place in the message: it is the directory of the first entry of
    [REPOS] whose lower-cased name occurs somewhere in the lower-cased
    text, whatever other names occur too, and the default directory when
    no name occurs. *)
Theorem pick_repo_first_match (before after : list (jsstring * jsstring))
    (name dir text spawnDir : jsstring) :
  Forall (λ nd, ¬ occurs_in (toLowerCase nd.1) (toLowerCase text)) before ->
  (occurs_in (toLowerCase name) (toLowerCase text) ->
   pick_repo toLowerCase (before ++ (name, dir) :: after) text spawnDir
   = dir)
  ∧ pick_repo toLowerCase before text spawnDir = spawnDir.
Proof.
  induction 1 as [|[n d] before Hn _ IH]; cbn [app pick_repo].
  - split; [|done]. intros H. apply includes_spec in H. by rewrite H.
  - assert (Hf : includes (toLowerCase text) (toLowerCase n) = false).
    { apply not_true_is_false. intros Hi. by apply Hn, includes_spec. }
    by rewrite Hf.
Qed.
End WorkingDirectory.

(** ** The two versions of [askClaude] *)

Lemma foldl_settle_is_Some p log :
  is_Some p -> is_Some (foldl settle p log).
Proof. intros [s ->]. rewrite foldl_settle_settled. by eexists. Qed.

Section Versions.
Variable JSON_parse : jsstring -> option json.
Variable ToString : json -> jsstring.

Lemma on_event_set_timer now ev tm st :
  on_event ToString now ev (set_timer tm st)
  = (set_timer tm (on_event ToString now ev st).1,
     (on_event ToString now ev st).2).
Proof.
  destruct ev; try reflexivity;
    unfold on_event; cbn [acc buf t0 timer_armed set_timer];
    (destruct (is_str "assistant" _); [|reflexivity];
     destruct (content_blocks _); [|reflexivity];
     destruct (blocks_loop _ _ _) as [[a out] []]; reflexivity).
Qed.

Lemma on_lines_set_timer now lines tm st :
  on_lines JSON_parse ToString now lines (set_timer tm st)
  = (set_timer tm (on_lines JSON_parse ToString now lines st).1,
     (on_lines JSON_parse ToString now lines st).2).
Proof.
  revert st. induction lines as [|line lines IH]; intros st; [done |].
  cbn [on_lines].
  assert (H1 : on_line JSON_parse ToString now line (set_timer tm st)
    = (set_timer tm (on_line JSON_parse ToString now line st).1,
       (on_line JSON_parse ToString now line st).2)).
  { unfold on_line. case_bool_decide; [done |].
    destruct (JSON_parse line); [apply on_event_set_timer | done]. }
  rewrite H1. destruct (on_line JSON_parse ToString now line st) as [st1 o1].
  cbn [fst snd]. rewrite IH.
  by destruct (on_lines JSON_parse ToString now lines st1).
Qed.

Lemma on_stdout_set_timer now d tm st :
  on_stdout JSON_parse ToString now d (set_timer tm st)
  = (set_timer tm (on_stdout JSON_parse ToString now d st).1,
     (on_stdout JSON_parse ToString now d st).2).
Proof.
  unfold on_stdout. cbn [buf acc t0 timer_armed set_timer].
  destruct (feed d (buf st)) as [lines carry].
  apply (on_lines_set_timer now lines tm
           (ProcState carry (acc st) (t0 st) (timer_armed st))).
Qed.

Lemma set_timer_id st : set_timer (timer_armed st) st = st.
Proof. by destruct st. Qed.

Lemma versions_agree_from evs :
  ∀ st tm p,
    tm = timer_armed st ∨ is_Some p ->
    set_timer true (IndexJs.run JSON_parse ToString evs (set_timer tm st)).1
    = set_timer true (run JSON_parse ToString evs st).1
    ∧ snapshots (IndexJs.run JSON_parse ToString evs (set_timer tm st)).2
      = snapshots (run JSON_parse ToString evs st).2
    ∧ foldl settle p
        (IndexJs.run JSON_parse ToString evs (set_timer tm st)).2
      = foldl settle p (run JSON_parse ToString evs st).2.
Proof.
  induction evs as [|e evs IH]; intros st tm p Hp; [done |].
  cbn [run IndexJs.run].
  assert (Hstep : ∃ tm',
    (IndexJs.step JSON_parse ToString e (set_timer tm st)).1
    = set_timer tm' (step JSON_parse ToString e st).1
    ∧ snapshots (IndexJs.step JSON_parse ToString e (set_timer tm st)).2
      = snapshots (step JSON_parse ToString e st).2
    ∧ foldl settle p (IndexJs.step JSON_parse ToString e (set_timer tm st)).2
      = foldl settle p (step JSON_parse ToString e st).2
    ∧ (tm' = timer_armed (step JSON_parse ToString e st).1
       ∨ is_Some (foldl settle p (step JSON_parse ToString e st).2))).
  { destruct e as [now d|d| |code|m]; cbn [step IndexJs.step].
    - exists tm. rewrite on_stdout_set_timer. cbn [fst snd].
      split; [done |]. split; [done |]. split; [done |].
      destruct Hp as [-> | Hp]; [left | right].
      + symmetry. apply on_stdout_frame.
      + by apply foldl_settle_is_Some.
    - exists tm. cbn [fst snd]. split; [done |].
      split; [by case_bool_decide |].
      split; [case_bool_decide; [done | by destruct p] |].
      destruct Hp as [-> | Hp]; [by left | right].
      by apply foldl_settle_is_Some.
    - cbn [timer_armed set_timer]. exists false.
      destruct Hp as [-> | [s ->]].
      + destruct (timer_armed st) eqn:E; cbn [fst snd timer_armed];
          (split; [done |]); (split; [done |]); (split; [done |]);
          left; by rewrite ?E.
      + destruct tm, (timer_armed st) eqn:E; cbn [fst snd timer_armed];
          (split; [by rewrite ?set_timer_id |]); (split; [done |]);
          (split; [done |]); right; by rewrite foldl_settle_settled.
    - exists false. cbn [fst snd acc set_timer timer_armed].
      split; [done |]. split; [done |]. split; [done |]. by left.
    - exists tm. cbn [fst snd]. split; [done |]. split; [done |].
      split; [done |]. right. destruct p; by eexists. }
  destruct Hstep as (tm' & H1 & H2 & H3 & H4).
  destruct (IndexJs.step JSON_parse ToString e (set_timer tm st))
    as [st1' out1'].
  destruct (step JSON_parse ToString e st) as [st1 out1].
  cbn [fst snd] in *. subst st1'.
  specialize (IH st1 tm' (foldl settle p out1) H4).
  destruct (IndexJs.run JSON_parse ToString evs (set_timer tm' st1))
    as [st2' out2'].
  destruct (run JSON_parse ToString evs st1) as [st2 out2].
  cbn [fst snd] in *. destruct IH as (IH1 & IH2 & IH3).
  rewrite !snapshots_app, !foldl_app, H2, IH2, H3, IH3. done.
Qed.

(** X22. The two versions of [askClaude] stream and settle alike: for every
    sequence of events, the handlers of [index.js] leave the same [buf],
    [acc] and [t0], pass the same snapshots to [onChunk] and settle the
    promise with the same outcome as those of the other script. (They
    differ in the [console.log] calls and in the timer after an ['error']
    event.) *)
Theorem askClaude_versions_agree (evs : list proc_event) (now : Z) :
  let r := run JSON_parse ToString evs (askClaude_init now) in
  let r' := IndexJs.run JSON_parse ToString evs (askClaude_init now) in
  buf r'.1 = buf r.1 ∧ acc r'.1 = acc r.1 ∧ t0 r'.1 = t0 r.1
  ∧ snapshots r'.2 = snapshots r.2
  ∧ promise r'.2 = promise r.2.
Proof.
  cbn zeta.
  destruct (versions_agree_from evs (askClaude_init now) true None)
    as (H1 & H2 & H3); [by left |].
  change (set_timer true (askClaude_init now)) with (askClaude_init now)
    in *.
  unfold set_timer in H1. injection H1 as Hb Ha Ht. by repeat split.
Qed.
End Versions.

(** ** The sessions of [index.js] *)

Section IndexSessions.
Variable cfg : config.
Variable fmtMs : Z -> jsstring.
Variable toFixed4 : float -> jsstring.
Variable ToString : json -> jsstring.
Variable StringToNumber : jsstring -> float.
Variable TypeError_message : throw_site -> jsstring.

Lemma IndexJs_begin_waiting m s w :
  (IndexJs.handleMessage_begin cfg m s).2 = Some w ->
  (IndexJs.handleMessage_begin cfg m s).1.1 = s
  ∧ IndexJs.w_key w = IndexJs.threadTs m
  ∧ IndexJs.w_text w = js_trim (default [] (text m)).
Proof.
  unfold IndexJs.handleMessage_begin.
  repeat match goal with
         | |- context [if ?b then _ else _] => destruct b
         end; cbn [fst snd]; try discriminate.
  by intros [= <-].
Qed.

(** X23. In [index.js] a session is a thread: without the SDK, once the
    invocation of a handler has resolved, a later message is invoked with
    the continuation flag exactly when its thread key
    ([thread_ts || ts]) is the key of that handler or had a marker
    before; it is always spawned in [WORK_DIR], and its prompt is the
    trimmed text. *)
Theorem IndexJs_sessions_follow_threads (f : IndexJs.inflight)
    (o : outcome) (now now' : Z) (s : IndexJs.store) (m : message)
    (w : IndexJs.waiting) (p : jsstring) :
  USE_SDK cfg = false ->
  let s' := (IndexJs.handleMessage_settled fmtMs toFixed4 ToString
               StringToNumber TypeError_message f (ClaudeDone o) now s).1 in
  (IndexJs.handleMessage_begin cfg m s').2 = Some w ->
  ∃ flag,
    snd <$> (IndexJs.handleMessage_posted cfg w (Some p) now' s').2
    = Some (CallClaude (js_trim (default [] (text m))) flag (WORK_DIR cfg))
    ∧ (flag = true
       ↔ IndexJs.threadTs m = IndexJs.w_key (IndexJs.f_wait f)
         ∨ IndexJs.threadTs m ∈ IndexJs.sessions s).
Proof.
  intros Hsdk. cbn zeta. intros Hw.
  destruct (IndexJs_begin_waiting _ _ _ Hw) as (_ & Hk & Ht).
  unfold IndexJs.handleMessage_posted. rewrite Hsdk, Hk, Ht.
  eexists. split; [reflexivity |].
  rewrite bool_decide_eq_true.
  cbn [IndexJs.handleMessage_settled fst IndexJs.sessions].
  rewrite elem_of_union, elem_of_singleton. done.
Qed.
End IndexSessions.

(** ** Line boundaries and the decoder *)

Lemma lfs_app a b : lfs (a ++ b) = (lfs a + lfs b)%nat.
Proof.
  induction a as [|c a IH]; [done |]. simpl. destruct (c =? 10)%N; lia.
Qed.

Lemma lfs_cons_ne c s : c ≠ 10%N -> lfs (c :: s) = lfs s.
Proof. intros H. simpl. by rewrite (proj2 (N.eqb_neq c 10) H). Qed.

Lemma utf8_decode_cons b0 r0 :
  utf8_decode (b0 :: r0) =
  if (b0 <? 128)%N then b0 :: utf8_decode r0
  else if in_range 194 223 b0 then
    match r0 with
    | [] => [65533%N]
    | b1 :: r1 =>
      if is_cont b1
      then ((b0 - 192) * 64 + (b1 - 128))%N :: utf8_decode r1
      else 65533%N :: utf8_decode r0
    end
  else if in_range 224 239 b0 then
    match r0 with
    | [] => [65533%N]
    | b1 :: r1 =>
      if in_range (second_lo b0) (second_hi b0) b1 then
        match r1 with
        | [] => [65533%N]
        | b2 :: r2 =>
          if is_cont b2
          then ((b0 - 224) * 4096 + (b1 - 128) * 64 + (b2 - 128))%N
                 :: utf8_decode r2
          else 65533%N :: utf8_decode r1
        end
      else 65533%N :: utf8_decode r0
    end
  else if in_range 240 244 b0 then
    match r0 with
    | [] => [65533%N]
    | b1 :: r1 =>
      if in_range (second_lo b0) (second_hi b0) b1 then
        match r1 with
        | [] => [65533%N]
        | b2 :: r2 =>
          if is_cont b2 then
            match r2 with
            | [] => [65533%N]
            | b3 :: r3 =>
              if is_cont b3
              then surrogates ((b0 - 240) * 262144 + (b1 - 128) * 4096
                               + (b2 - 128) * 64 + (b3 - 128))%N
                     ++ utf8_decode r3
              else 65533%N :: utf8_decode r2
            end
          else 65533%N :: utf8_decode r1
        end
      else 65533%N :: utf8_decode r0
    end
  else 65533%N :: utf8_decode r0.
Proof. reflexivity. Qed.

Lemma second_lo_bound b0 b1 :
  in_range (second_lo b0) (second_hi b0) b1 = true ->
  (128 <= b1)%N ∧ (b0 = 224%N -> (160 <= b1)%N).
Proof.
  intros H%in_range_spec. unfold second_lo, second_hi in H.
  destruct (N.eqb_spec b0 224), (N.eqb_spec b0 240), (N.eqb_spec b0 237),
    (N.eqb_spec b0 244); lia.
Qed.

Ltac range_facts :=
  repeat match goal with
         | H : (_ <? _)%N = false |- _ => apply N.ltb_ge in H
         | H : in_range (second_lo _) (second_hi _) _ = true |- _ =>
           apply second_lo_bound in H; destruct H
         | H : in_range _ _ _ = true |- _ => apply in_range_spec in H
         | H : is_cont _ = true |- _ =>
           unfold is_cont in H; apply andb_true_iff in H as [?%N.leb_le _]
         end.

(** The decoder neither makes nor swallows a line feed. *)
Lemma lfs_utf8_decode bs : lfs (utf8_decode bs) = lfs bs.
Proof.
  remember (length bs) as n eqn:Hn. revert bs Hn.
  induction n as [n IH] using lt_wf_ind. intros bs ->.
  assert (IH' : ∀ r, (length r < length bs)%nat ->
                     lfs (utf8_decode r) = lfs r).
  { intros r Hr. by apply (IH (length r)). }
  clear IH. destruct bs as [|b0 r0]; [done |].
  rewrite utf8_decode_cons.
  repeat match goal with
         | |- context [if ?b then _ else _] => destruct b eqn:?
         | |- context [match ?l with [] => _ | _ :: _ => _ end] =>
           destruct l
         end;
    range_facts; unfold surrogates; cbn [lfs app];
    try match goal with
        | |- context [N.div ?a 1024] =>
          generalize (N.div a 1024), (N.modulo a 1024); intros ? ?
        end;
    rewrite ?IH' by (simpl; lia); cbn [lfs];
    repeat match goal with
           | |- context [(?x =? 10)%N] =>
             destruct (N.eqb_spec x 10); try lia
           end;
    reflexivity.
Qed.

Lemma length_split_nl s : length (split_nl s) = S (lfs s).
Proof.
  induction s as [|c s IH]; [done |].
  rewrite split_nl_cons. simpl lfs.
  pose proof (split_nl_nonempty s) as Hne.
  destruct (c =? 10)%N; simpl; [by rewrite IH |].
  destruct (split_nl s); [done |]. simpl in *. lia.
Qed.

Lemma lfs_concat_decode chunks :
  lfs (concat (Buffer_toString <$> chunks))
  = lfs (Byte.to_N <$> concat chunks).
Proof.
  induction chunks as [|d chunks IH]; [done |].
  rewrite fmap_cons. cbn [concat]. rewrite fmap_app, !lfs_app, IH.
  unfold Buffer_toString. by rewrite lfs_utf8_decode.
Qed.

(** X24. The number of complete lines the framer yields is the number of
    line-feed bytes delivered, however the stream is cut into chunks: a
    cut inside a multi-byte character can garble the text of a line but
    never moves, adds or drops a line boundary. *)
Theorem line_count_ignores_chunking (chunks : list (list Byte.byte)) :
  length (feed_all chunks []).1 = lfs (Byte.to_N <$> concat chunks).
Proof.
  rewrite feed_all_texts, feed_texts_concat by done.
  rewrite feed_text_lines. cbn [fst app].
  pose proof (length_split_nl (concat (Buffer_toString <$> chunks))) as H.
  pose proof (split_nl_nonempty (concat (Buffer_toString <$> chunks))) as Hne.
  rewrite <- lfs_concat_decode.
  destruct (split_nl _) as [|l ls] using rev_ind; [done |].
  rewrite removelast_last. rewrite length_app in H. simpl in H. lia.
Qed.

(** ** The mode and the prompt *)

Lemma drop_spaces_head l c r : drop_spaces l = c :: r -> is_space c = false.
Proof.
  induction l as [|x l IH]; [done |]. simpl.
  destruct (is_space x) eqn:E; [done |]. by intros [= <- <-].
Qed.

Section Mode.
Variable cfg : config.
Variable toLowerCase : jsstring -> jsstring.

(** X25. A handler that goes on to an invocation has left the store as it
    was and is keyed by the channel. It runs in quick mode exactly when the
    SDK is enabled and the trimmed text starts with [quick:] in any case:
    then its prompt is the text after the prefix and the white space that
    follows it; otherwise its prompt is the trimmed text, a [quick:] prefix
    included. In neither case is the prompt a reset command. *)
Theorem mode_and_prompt (m : message) (s : store) (w : waiting) :
  (handleMessage_begin cfg toLowerCase m s).2 = Some w ->
  let raw := js_trim (default [] (text m)) in
  (handleMessage_begin cfg toLowerCase m s).1.1 = s
  ∧ w_key w = channel m
  ∧ w_quick w = USE_SDK cfg && quick_test raw
  ∧ (w_quick w = false -> w_text w = raw)
  ∧ (w_quick w = true ->
     ∃ sp, drop 6 raw = sp ++ w_text w
           ∧ forallb is_space sp = true
           ∧ ∀ c r, w_text w = c :: r -> is_space c = false)
  ∧ reset_test (w_text w) = false.
Proof.
  cbn zeta. unfold handleMessage_begin.
  destruct (negb (bool_decide (channel_type m = _))); [done |].
  destruct (negb (bool_decide (user_id m = _))); [done |].
  destruct (negb (bool_decide (default [] (subtype m) = _))); [done |].
  case_bool_decide; [done |].
  set (raw := js_trim (default [] (text m))).
  destruct (USE_SDK cfg && quick_test raw) eqn:Eq.
  - destruct (reset_test (quick_strip raw)) eqn:Er; [done |].
    cbn [fst snd]. intros [= <-]. cbn [w_key w_quick w_text].
    repeat split; try done. intros _.
    apply andb_true_iff in Eq as [_ Eq]. unfold quick_strip in *.
    rewrite Eq in *.
    destruct (drop_spaces_split (drop 6 raw)) as (sp & Hsp & Hall).
    exists sp. split; [done |]. split; [done |].
    intros c r. apply drop_spaces_head.
  - destruct (reset_test raw) eqn:Er; [done |].
    cbn [fst snd]. intros [= <-]. cbn [w_key w_quick w_text].
    by repeat split.
Qed.
End Mode.

(** ** The calls of one handler *)

Lemma own_call_ext f f' c :
  f_wait f' = f_wait f -> f_posted f' = f_posted f ->
  own_call f c -> own_call f' c.
Proof. intros Hw Hp. destruct c; cbn [own_call]; by rewrite ?Hw, ?Hp. Qed.

Lemma reactions_app a b : reactions (a ++ b) = reactions a ++ reactions b.
Proof. apply omap_app. Qed.

Lemma handleMessage_chunks_reactions calls f :
  reactions (handleMessage_chunks calls f).2 = [].
Proof.
  revert f. induction calls as [|[now t] calls IH]; intros f; [done |].
  cbn [handleMessage_chunks]. unfold handleMessage_chunk.
  destruct (liveUpdate now t (f_throttle f)) as [th o].
  match goal with |- context [handleMessage_chunks calls ?g] =>
    specialize (IH g); destruct (handleMessage_chunks calls g) as [f2 out2]
  end.
  cbn [snd] in *. rewrite reactions_app, IH. by destruct o.
Qed.

Section OwnCalls.
Variable JSON_parse : jsstring -> option json.
Variable fmtMs : Z -> jsstring.
Variable toFixed4 : float -> jsstring.
Variable ToString : json -> jsstring.
Variable StringToNumber : jsstring -> float.
Variable TypeError_message : throw_site -> jsstring.
Variable clock : nat -> Z.

#[local] Abbreviation hrun :=
  (handler_run JSON_parse fmtMs toFixed4 ToString StringToNumber
     TypeError_message clock).
#[local] Abbreviation hstep :=
  (handle JSON_parse fmtMs toFixed4 ToString StringToNumber
     TypeError_message clock).

Lemma handle_own ev h :
  f_wait (h_flight (hstep ev h).1) = f_wait (h_flight h)
  ∧ f_posted (h_flight (hstep ev h).1) = f_posted (h_flight h)
  ∧ Forall (own_call (h_flight h)) (hstep ev h).2
  ∧ (length (reactions (hstep ev h).2)
     + reactions_left (h_awaits (hstep ev h).1)
     <= reactions_left (h_awaits h))%nat.
Proof.
  assert (Hinv : ∀ r,
    let o := handle_invoked fmtMs toFixed4 ToString StringToNumber
               TypeError_message clock r h in
    f_wait (h_flight o.1) = f_wait (h_flight h)
    ∧ f_posted (h_flight o.1) = f_posted (h_flight h)
    ∧ Forall (own_call (h_flight h)) o.2
    ∧ (length (reactions o.2) + reactions_left (h_awaits o.1)
       <= reactions_left (h_awaits h))%nat).
  { intros [[inv snaps] settled]. cbn zeta. cbn [handle_invoked].
    pose proof (handleMessage_chunks_frame
                  (timed clock (h_reads h) snaps) (h_flight h))
      as (Hw & Hp & _ & _ & Hown).
    pose proof (handleMessage_chunks_reactions
                  (timed clock (h_reads h) snaps) (h_flight h)) as Hre.
    destruct (handleMessage_chunks (timed clock (h_reads h) snaps)
                (h_flight h)) as [f live].
    cbn [fst snd] in *.
    assert (Hstay :
      let o := (Handler inv f (h_awaits h)
                  (h_reads h + length snaps) (h_store h), live) in
      f_wait (h_flight o.1) = f_wait (h_flight h)
      ∧ f_posted (h_flight o.1) = f_posted (h_flight h)
      ∧ Forall (own_call (h_flight h)) o.2
      ∧ (length (reactions o.2) + reactions_left (h_awaits o.1)
         <= reactions_left (h_awaits h))%nat).
    { cbn [fst snd h_flight h_awaits]. rewrite Hre. by repeat split. }
    destruct (h_awaits h) as [[]|] eqn:Ea; try exact Hstay.
    destruct settled as [e|]; [|exact Hstay].
    destruct (handleMessage_settled fmtMs toFixed4 ToString StringToNumber
                TypeError_message f e
                (clock (h_reads h + length snaps)) (h_store h))
      as [s calls] eqn:Es.
    cbn [fst snd h_flight h_awaits].
    assert (Hcalls : ∃ body,
      calls = [Update (w_chan (f_wait f)) (f_posted f) body]).
    { destruct e; cbn [handleMessage_settled] in Es;
        injection Es as _ <-; by eexists. }
    destruct Hcalls as [body ->].
    split; [done |]. split; [done |]. split.
    - apply Forall_app. split; [done |].
      apply Forall_singleton. cbn [own_call]. by rewrite Hw, Hp.
    - rewrite reactions_app, Hre. cbn [reactions omap app length].
      unfold reactions_left.
      destruct (settled_awaits fmtMs toFixed4 ToString StringToNumber e);
        simpl; lia. }
  destruct ev as [e|e|r]; cbn [handle]; try apply Hinv.
  destruct (h_awaits h) as [a|] eqn:Ea.
  2: { cbn [fst snd]. rewrite Ea. repeat split; [done | simpl; lia]. }
  destruct a, r; cbn [handleMessage_resumed fst snd h_flight h_awaits];
    repeat split; try done; try (by repeat constructor); simpl; lia.
Qed.

(** X26. From its invocation on, whatever the event loop delivers and in
    whatever order (chunks of the worker before and after the invocation
    has settled, ends of the stream, acceptances and refusals by the chat
    client), a handler only edits its own placeholder message and reacts
    to the message it answers: every call it makes is an update of that
    placeholder or a reaction on that message, it posts no further
    message, and it adds at most one reaction. *)
Theorem handler_edits_its_own_message (evs : list handler_event)
    (h : handler) :
  Forall (own_call (h_flight h)) (hrun evs h).2
  ∧ (length (reactions (hrun evs h).2) <= 1)%nat.
Proof.
  assert (Hgen : Forall (own_call (h_flight h)) (hrun evs h).2
    ∧ (length (reactions (hrun evs h).2) <= reactions_left (h_awaits h))%nat).
  { revert h. induction evs as [|ev evs IH]; intros h.
    - split; [done |]. cbn. lia.
    - cbn [handler_run]. pose proof (handle_own ev h) as (Hw & Hp & Ho & Hr).
      destruct (hstep ev h) as [h1 out1]. cbn [fst snd] in *.
      specialize (IH h1) as [IHo IHr].
      destruct (hrun evs h1) as [h2 out2]. cbn [snd] in *. split.
      + apply Forall_app. split; [done |].
        eapply Forall_impl; [exact IHo |].
        intros c. by apply own_call_ext.
      + rewrite reactions_app, length_app. lia. }
  destruct Hgen as [Ho Hr]. split; [done |].
  etrans; [exact Hr |]. unfold reactions_left.
  destruct (h_awaits h) as [[]|]; lia.
Qed.
End OwnCalls.

(** ** The event that settles an invocation *)

Lemma promise_elem log r :
  promise log = Some r ->
  match r with
  | Fulfilled o => Resolve o ∈ log
  | Rejected m => Reject m ∈ log
  end.
Proof.
  unfold promise. induction log as [|a log IH]; [done |].
  cbn [foldl]. destruct a as [t|o|m| |l]; cbn [settle];
    try (intros H; specialize (IH H); destruct r;
         apply elem_of_cons; by right).
  - rewrite foldl_settle_settled. intros [= <-]. apply elem_of_cons. by left.
  - rewrite foldl_settle_settled. intros [= <-]. apply elem_of_cons. by left.
Qed.

Section Settling.
Variable JSON_parse : jsstring -> option json.
Variable ToString : json -> jsstring.

Lemma blocks_loop_reports d bs a :
  Forall (reports d) (blocks_loop ToString bs a).1.2.
Proof.
  revert a. induction bs as [|b bs IH]; intros a; [constructor |].
  assert (Hstep : Forall (reports d)
    (if is_str "text" (get "type" b) && truthy (get "text" b)
     then let acc' := a ++ from_option (to_string ToString) []
                                       (get "text" b) in
          let '(a2, out, threw) := blocks_loop ToString bs acc' in
          (a2, OnChunk acc' :: out, threw)
     else blocks_loop ToString bs a).1.2).
  { destruct (is_str "text" (get "type" b) && truthy (get "text" b));
      [|apply IH]. cbn zeta.
    specialize (IH (a ++ from_option (to_string ToString) [] (get "text" b))).
    destruct (blocks_loop ToString bs _) as [[a2 out] threw].
    by constructor. }
  destruct b; try exact Hstep. constructor.
Qed.

Lemma result_actions_reports now st ev :
  Forall (reports (now - t0 st)) (result_actions ToString now st ev).
Proof.
  unfold result_actions. apply Forall_app. split.
  - destruct (_ && _); by repeat constructor.
  - destruct (_ && _); by repeat constructor.
Qed.

Lemma on_event_reports now ev st :
  Forall (reports (now - t0 st)) (on_event ToString now ev st).2.
Proof.
  assert (Hmain : ∀ r,
    r = (if is_str "assistant" (get "type" ev) then
           match content_blocks ev with
           | None => (st, [])
           | Some bs =>
             let '(a, out, threw) := blocks_loop ToString bs (acc st) in
             let st' := ProcState (buf st) a (t0 st) (timer_armed st) in
             if threw then (st', out)
             else (st', out ++ result_actions ToString now st' ev)
           end
         else (st, result_actions ToString now st ev)) ->
    Forall (reports (now - t0 st)) r.2).
  { intros r ->. destruct (is_str "assistant" (get "type" ev)).
    - destruct (content_blocks ev) as [bs|]; [|done].
      pose proof (blocks_loop_reports (now - t0 st) bs (acc st)) as H.
      destruct (blocks_loop ToString bs (acc st)) as [[a out] threw].
      destruct threw; cbn [fst snd] in *; [done |].
      apply Forall_app. split; [done |].
      apply (result_actions_reports now
               (ProcState (buf st) a (t0 st) (timer_armed st))).
    - apply result_actions_reports. }
  destruct ev; by apply Hmain.
Qed.

Lemma on_lines_reports now lines st :
  Forall (reports (now - t0 st))
    (on_lines JSON_parse ToString now lines st).2.
Proof.
  revert st. induction lines as [|line lines IH]; intros st; [done |].
  cbn [on_lines].
  assert (H1 : t0 (on_line JSON_parse ToString now line st).1 = t0 st
    ∧ Forall (reports (now - t0 st))
        (on_line JSON_parse ToString now line st).2).
  { unfold on_line. case_bool_decide; [done |].
    destruct (JSON_parse line) as [ev|]; [|done].
    split; [apply on_event_frame | apply on_event_reports]. }
  destruct (on_line JSON_parse ToString now line st) as [st1 out1].
  specialize (IH st1).
  destruct (on_lines JSON_parse ToString now lines st1) as [st2 out2].
  cbn [fst snd] in *. destruct H1 as [Ht H1]. rewrite Ht in IH.
  by apply Forall_app.
Qed.

(** What the handler of one event settles a pending promise with. *)
Lemma step_settles e st r :
  promise (step JSON_parse ToString e st).2 = Some r ->
  match e, r with
  | StdoutData now _, Fulfilled o => durationMs o = now - t0 st
  | StdoutData _ _, Rejected _ => True
  | TimerFired, Rejected m => timer_armed st = true ∧ m = str "Timeout 5min"
  | Close code, Rejected m =>
    code ≠ Some 0 ∧ acc st = [] ∧ m = exit_message code
  | ProcError m', Rejected m => m = m'
  | _, _ => False
  end.
Proof.
  destruct e as [now d|d| |code|m']; cbn [step snd].
  - intros H. apply promise_elem in H. destruct r as [o|m]; [|done].
    unfold on_stdout in H. destruct (feed d (buf st)) as [lines carry].
    pose proof (on_lines_reports now lines
                  (ProcState carry (acc st) (t0 st) (timer_armed st))) as Hr.
    rewrite Forall_forall in Hr. exact (Hr _ H).
  - by case_bool_decide.
  - destruct (timer_armed st); [|done]. by intros [= <-].
  - case_bool_decide as Hc; [|done]. case_bool_decide as Ha; [|done].
    by intros [= <-].
  - by intros [= <-].
Qed.

(** The first event whose handler settles the promise. *)
Lemma first_settling_event evs st r :
  promise (run JSON_parse ToString evs st).2 = Some r ->
  ∃ evs1 e evs2,
    evs = evs1 ++ e :: evs2
    ∧ promise (run JSON_parse ToString evs1 st).2 = None
    ∧ promise (step JSON_parse ToString e
                 (run JSON_parse ToString evs1 st).1).2 = Some r.
Proof.
  revert st. induction evs as [|e evs IH]; intros st; [done |].
  cbn [run]. destruct (step JSON_parse ToString e st) as [st1 out1] eqn:E.
  specialize (IH st1).
  destruct (run JSON_parse ToString evs st1) as [st2 out2] eqn:E2.
  cbn [snd] in *. destruct (promise out1) as [r1|] eqn:Ep.
  - rewrite promise_first_wins by (by rewrite Ep). rewrite Ep.
    intros [= <-]. exists [], e, evs. cbn [run fst snd app].
    by rewrite E.
  - rewrite promise_pending_app by done. intros H.
    destruct (IH H) as (evs1 & e' & evs2 & -> & Hpend & Hstep).
    exists (e :: evs1), e', evs2. split; [done |].
    cbn [run]. rewrite E.
    destruct (run JSON_parse ToString evs1 st1) as [st3 out3].
    cbn [fst snd] in *. by rewrite promise_pending_app.
Qed.

Lemma run_t0 evs st : t0 (run JSON_parse ToString evs st).1 = t0 st.
Proof.
  revert st. induction evs as [|e evs IH]; intros st; [done |].
  cbn [run]. destruct (step_keeps JSON_parse ToString e st) as (Ht & _).
  destruct (step JSON_parse ToString e st) as [st1 out1].
  specialize (IH st1).
  destruct (run JSON_parse ToString evs st1) as [st2 out2].
  cbn [fst] in *. congruence.
Qed.

(** X2. Only a line of the worker's output fulfils the promise of
    [askClaude]: when the promise is fulfilled, the first event that
    settled it is a stdout chunk, the promise was pending until then, and
    the duration it reports is the clock value read in the handler of
    that chunk less the start time. The timer, ['close'], ['error'] and
    stderr never resolve. *)
Theorem askClaude_fulfilled_by_stdout (evs : list proc_event)
    (st : proc_state) (o : outcome) :
  promise (run JSON_parse ToString evs st).2 = Some (Fulfilled o) ->
  ∃ evs1 now d evs2,
    evs = evs1 ++ StdoutData now d :: evs2
    ∧ promise (run JSON_parse ToString evs1 st).2 = None
    ∧ Resolve o ∈ (on_stdout JSON_parse ToString now d
                     (run JSON_parse ToString evs1 st).1).2
    ∧ durationMs o = now - t0 st.
Proof.
  intros H.
  destruct (first_settling_event _ _ _ H)
    as (evs1 & e & evs2 & -> & Hpend & Hstep).
  pose proof (step_settles _ _ _ Hstep) as Hs.
  destruct e as [now d|d| |code|m']; try done.
  exists evs1, now, d, evs2. split; [done |]. split; [done |].
  split; [exact (promise_elem _ _ Hstep) |].
  rewrite Hs. f_equal. apply run_t0.
Qed.

(** X3. What a rejection of [askClaude] means: the first event that
    settled the promise, which was pending until then, is the timer while
    it was still pending, with the message ['Timeout 5min']; or a
    ['close'] with a code other than [0] when nothing had been
    accumulated, with ['exit ' + code]; or an ['error'] event, with its
    message; or a stdout chunk. Stderr never rejects. *)
Theorem askClaude_rejection_causes (evs : list proc_event)
    (st : proc_state) (m : jsstring) :
  promise (run JSON_parse ToString evs st).2 = Some (Rejected m) ->
  ∃ evs1 e evs2,
    evs = evs1 ++ e :: evs2
    ∧ promise (run JSON_parse ToString evs1 st).2 = None
    ∧ match e with
      | StdoutData now d =>
        Reject m ∈ (on_stdout JSON_parse ToString now d
                      (run JSON_parse ToString evs1 st).1).2
      | StderrData _ => False
      | TimerFired =>
        timer_armed (run JSON_parse ToString evs1 st).1 = true
        ∧ m = str "Timeout 5min"
      | Close code =>
        code ≠ Some 0
        ∧ acc (run JSON_parse ToString evs1 st).1 = []
        ∧ m = exit_message code
      | ProcError m' => m = m'
      end.
Proof.
  intros H.
  destruct (first_settling_event _ _ _ H)
    as (evs1 & e & evs2 & -> & Hpend & Hstep).
  pose proof (step_settles _ _ _ Hstep) as Hs.
  exists evs1, e, evs2. split; [done |]. split; [done |].
  destruct e as [now d|d| |code|m']; try done.
  exact (promise_elem _ _ Hstep).
Qed.
End Settling.

(** ** The events that end an invocation *)

Section Endings.
Variable JSON_parse : jsstring -> option json.
Variable ToString : json -> jsstring.

Lemma run_after_close (later : list proc_event) (st : proc_state) :
  timer_armed st = false ->
  Forall (λ e, match e with
               | TimerFired | StderrData _ => True
               | _ => False
               end) later ->
  promise (run JSON_parse ToString later st).2 = None.
Proof.
  intros Ht Hlater. induction Hlater as [|e later He _ IH]; [done |].
  cbn [run]. destruct e as [now d|d| |code|m]; try done; cbn [step].
  - destruct (run JSON_parse ToString later st) as [st2 out2].
    cbn [snd] in *. by case_bool_decide.
  - rewrite Ht. by destruct (run JSON_parse ToString later st).
Qed.

(** X27. What ends a pending invocation: after any events that left the
    promise pending, the timer (still pending itself) rejects with
    ['Timeout 5min']; an ['error'] event rejects with its message; a
    ['close'] with a code other than [0] ([null] after a signal included)
    and nothing accumulated rejects with ['exit ' + code]; and every other
    ['close'], one with code [0] or with text accumulated, leaves the
    promise pending and the timer cleared, so that the timer and stderr
    events that follow still leave it pending. *)
Theorem ending_events (evs : list proc_event) (st : proc_state) :
  promise (run JSON_parse ToString evs st).2 = None ->
  (timer_armed (run JSON_parse ToString evs st).1 = true ->
   promise (run JSON_parse ToString (evs ++ [TimerFired]) st).2
   = Some (Rejected (str "Timeout 5min")))
  ∧ (∀ m, promise (run JSON_parse ToString (evs ++ [ProcError m]) st).2
          = Some (Rejected m))
  ∧ (∀ code, code ≠ Some 0 ->
       acc (run JSON_parse ToString evs st).1 = [] ->
       promise (run JSON_parse ToString (evs ++ [Close code]) st).2
       = Some (Rejected (exit_message code)))
  ∧ (∀ code later,
       acc (run JSON_parse ToString evs st).1 ≠ [] ∨ code = Some 0 ->
       Forall (λ e, match e with
                    | TimerFired | StderrData _ => True
                    | _ => False
                    end) later ->
       promise (run JSON_parse ToString (evs ++ Close code :: later) st).2
       = None).
Proof.
  intros Hp. set (st1 := (run JSON_parse ToString evs st).1).
  assert (Hone : ∀ e,
    promise (run JSON_parse ToString (evs ++ [e]) st).2
    = promise (step JSON_parse ToString e st1).2).
  { intros e. rewrite run_app. cbn [snd].
    rewrite promise_pending_app by done. fold st1. cbn [run].
    destruct (step JSON_parse ToString e st1) as [s2 o2].
    cbn [snd]. by rewrite app_nil_r. }
  split; [|split; [|split]].
  - intros Ht. rewrite Hone. cbn [step]. by rewrite Ht.
  - intros m. by rewrite Hone.
  - intros code Hc Ha. rewrite Hone, close_step. rewrite Ha.
    rewrite bool_decide_eq_true_2 by done.
    by rewrite bool_decide_eq_true_2.
  - intros code later Hcode Hlater. rewrite run_app. cbn [snd].
    rewrite promise_pending_app by done. fold st1. cbn [run].
    destruct (close_settles_nothing JSON_parse ToString code st1 Hcode)
      as [Hnone _].
    destruct (step JSON_parse ToString (Close code) st1) as [st2 o2] eqn:E.
    cbn [fst snd] in *. subst o2.
    assert (Ht : timer_armed st2 = false).
    { rewrite close_step in E. by injection E as <- _. }
    pose proof (run_after_close later st2 Ht Hlater) as Hr.
    destruct (run JSON_parse ToString later st2) as [st3 o3].
    by cbn [fst snd app] in *.
Qed.
End Endings.

(** ** Instances *)

Lemma unrecognized_line_is_skipped_witness :
  on_lines parse_only_hi (λ _, []) 5
    ([] ++ str "noise" :: [assistant_hi_line]) (askClaude_init 0)
  = on_lines parse_only_hi (λ _, []) 5
      ([] ++ [assistant_hi_line]) (askClaude_init 0).
Proof.
  apply unrecognized_line_is_skipped. right; left. reflexivity.
Defined.

Lemma result_error_rejects_witness :
  promise (on_event (λ _, []) 7 sample_result_error (askClaude_init 0)).2
  = Some (Rejected (str "boom")).
Proof.
  exact (proj2 (result_error_rejects (λ _, []) 7 sample_result_error
                  (askClaude_init 0) eq_refl eq_refl)).
Defined.

Lemma continuation_after_success_witness :
  snd <$> (handleMessage_posted sample_waiting (Some (str "14.5")) 10
             (handleMessage_settled (λ _, str "1.0s") (λ _, str "0.0001")
                (λ _, []) (λ _, 0%float) (λ _, [])
                sample_inflight (ClaudeDone (Outcome (JStr (str "ok")) 5 None))
                9 store_init).1).2
  = Some (CallClaude (str "hello") true (str "/work")).
Proof.
  exact (proj1 (continuation_after_success (λ _, str "1.0s")
                  (λ _, str "0.0001") (λ _, []) (λ _, 0%float) (λ _, [])
                  sample_inflight
                  (Outcome (JStr (str "ok")) 5 None) 9 10 store_init
                  sample_waiting (str "14.5") (str "/work") ∅
                  eq_refl eq_refl)).
Defined.

Lemma history_round_trip_witness :
  snd <$> (handleMessage_posted sample_quick_waiting (Some (str "14.5")) 10
             (handleMessage_settled (λ _, str "1.0s") (λ _, str "0.0001")
                (λ _, []) (λ _, 0%float) (λ _, [])
                sample_quick_inflight (SDKDone (str "ok") 0%float)
                9 sample_store).1).2
  = Some (CallSDK (str "again") (push_turn ten_turns (str "next") (str "ok"))).
Proof.
  exact (proj1 (history_round_trip (λ _, str "1.0s") (λ _, str "0.0001")
                  (λ _, []) (λ _, 0%float) (λ _, [])
                  sample_quick_inflight (str "ok") 0%float 9 10 sample_store
                  ten_turns sample_quick_waiting (str "14.5")
                  eq_refl eq_refl eq_refl)).
Defined.

Lemma pick_repo_first_match_witness :
  pick_repo ascii_lower REPOS (str "fix rodeo, not tl-api") (str "/work")
  = str "/Users/kingsotn-twelve/work/tl-api".
Proof.
  apply (pick_repo_first_match ascii_lower (take 2 REPOS) (drop 3 REPOS)
           (str "rodeo") (str "/Users/kingsotn-twelve/work/tl-api")
           (str "fix rodeo, not tl-api") (str "/work")).
  - repeat constructor; intros H; apply includes_spec in H;
      vm_compute in H; discriminate H.
  - apply includes_spec. reflexivity.
Defined.

Lemma IndexJs_sessions_follow_threads_witness :
  ∃ flag,
    snd <$> (IndexJs.handleMessage_posted sample_config
               (IndexJs.Waiting (Some (str "10.5")) (str "D1")
                  (Some (str "9.5")) (str "more"))
               (Some (str "10.6")) 10
               (IndexJs.handleMessage_settled (λ _, str "1.0s")
                  (λ _, str "0.0001") (λ _, []) (λ _, 0%float) (λ _, [])
                  sample_thread_inflight
                  (ClaudeDone (Outcome (JStr (str "ok")) 5 None)) 9
                  IndexJs.store_init).1).2
    = Some (CallClaude (js_trim (default [] (text sample_thread_reply)))
              flag (WORK_DIR sample_config))
    ∧ flag = true.
Proof.
  destruct (IndexJs_sessions_follow_threads sample_config (λ _, str "1.0s")
              (λ _, str "0.0001") (λ _, []) (λ _, 0%float) (λ _, [])
              sample_thread_inflight
              (Outcome (JStr (str "ok")) 5 None) 9 10 IndexJs.store_init
              sample_thread_reply
              (IndexJs.Waiting (Some (str "10.5")) (str "D1")
                 (Some (str "9.5")) (str "more"))
              (str "10.6") eq_refl eq_refl)
    as (flag & Hcall & Hflag).
  exists flag. split; [exact Hcall |]. apply Hflag. left. reflexivity.
Defined.

Lemma mode_and_prompt_witness :
  ∃ sp, drop 6 (js_trim (str "quick: hi")) = sp ++ str "hi"
        ∧ forallb is_space sp = true.
Proof.
  destruct (mode_and_prompt sample_config_sdk ascii_lower sample_quick
              store_init
              (Waiting (Some (str "9.5")) (str "D1") (str "D1") true
                 (str "hi") (str "/work"))
              eq_refl)
    as (_ & _ & _ & _ & Hq & _).
  destruct (Hq eq_refl) as (sp & Hsp & Hall & _).
  exists sp. split; [exact Hsp | exact Hall].
Defined.

Lemma askClaude_fulfilled_by_stdout_witness :
  ∃ evs1 now d evs2,
    [StdoutData 5 (bytes_of (result_done_line ++ [10%N])); Close (Some 0)]
    = evs1 ++ StdoutData now d :: evs2
    ∧ durationMs (Outcome (JStr (str "done")) 5 None) = now - 0.
Proof.
  destruct (askClaude_fulfilled_by_stdout parse_sample (λ _, [])
              [StdoutData 5 (bytes_of (result_done_line ++ [10%N]));
               Close (Some 0)]
              (askClaude_init 0) (Outcome (JStr (str "done")) 5 None)
              eq_refl)
    as (evs1 & now & d & evs2 & Hsplit & _ & _ & Hd).
  by exists evs1, now, d, evs2.
Defined.

Lemma askClaude_rejection_causes_witness :
  ∃ evs1 e evs2,
    [StderrData (bytes_of (str "warn")); Close None; TimerFired]
    = evs1 ++ e :: evs2
    ∧ promise (run parse_sample (λ _, []) evs1 (askClaude_init 0)).2 = None.
Proof.
  destruct (askClaude_rejection_causes parse_sample (λ _, [])
              [StderrData (bytes_of (str "warn")); Close None; TimerFired]
              (askClaude_init 0) (str "exit null") eq_refl)
    as (evs1 & e & evs2 & Hsplit & Hpend & _).
  by exists evs1, e, evs2.
Defined.

Lemma ending_events_witness :
  promise (run parse_only_hi (λ _, [])
             ([StdoutData 5 (bytes_of (assistant_hi_line ++ [10%N]))]
              ++ [ProcError (str "spawn ENOENT")])
             (askClaude_init 0)).2
  = Some (Rejected (str "spawn ENOENT")).
Proof.
  exact (proj1 (proj2
    (ending_events parse_only_hi (λ _, [])
       [StdoutData 5 (bytes_of (assistant_hi_line ++ [10%N]))]
       (askClaude_init 0) eq_refl)) (str "spawn ENOENT")).
Defined.
